(** * YACReader::ConcurrentQueue (concurrent_queue.h)

    A shallow embedding of the worker-pool job dispatcher.  Every region
    the source runs under one of its two mutexes is one atomic transition
    of the model; the code between two such regions (a call of the job, a
    notify on a condition variable) is a transition of its own.  Threads
    are interleaved by the list of events handed to [run]. *)

From stdpp Require Import base option list.
From Stdlib Require Import ZArith Lia.

Local Open Scope Z_scope.

Module ConcurrentQueue.

(** ** Data *)

(** [std::size_t]: 64 bits, unsigned, arithmetic modulo [2^64]. *)
Definition size_modulus : Z := 2 ^ 64.
Definition wrap (z : Z) : Z := z mod size_modulus.

(** [std::vector<std::thread>::max_size()], the bound checked by
    [reserve]: [PTRDIFF_MAX / sizeof(std::thread)] on an LP64 target. *)
Definition threads_max_size : Z := (2 ^ 63 - 1) / 8.

(** [std::function<void(void)>]: empty, or holding a target. *)
Inductive function := Empty | Target (f : nat).

(** How a call of a target ends, as far as the dispatcher can see.  A job
    that never returns (it loops, or waits for something) is a run in which
    the worker's step from [WRun] does not occur; no statement below says
    that this step must occur. *)
Inductive outcome := Returns | Throws.

(** An element of [_queue].  [ticket] is a history variable: the number of
    the [enqueue] call that created this element. *)
Record entry := Entry { ticket : nat; job : function }.

Inductive exception := bad_function_call | job_exception | length_error.

(** How the process can die: a failed [assert] of [finalizeJobs] (line 115
    or line 120), or [std::terminate] after an exception left [nextJob]. *)
Inductive fault_kind := AssertCount | AssertJobsLeft | Terminate (e : exception).

(** Program points of [nextJob], the body of every worker thread. *)
Inductive worker :=
| WAcquire                  (* line 90: top of the loop, takes queueMutex *)
| WWaiting                  (* line 96: asleep in jobAvailableVar.wait *)
| WWoken                    (* line 96: woken, re-takes queueMutex *)
| WRun (e : entry)          (* line 108: job() *)
| WFinalize                 (* line 109: finalizeJobs(1), lines 115-123 *)
| WNotify (remainingJobs : Z) (* lines 125-126 *)
| WExited.                  (* lines 93, 101: return *)

Record thread := Thread { pc : worker; joinable : bool }.

(** Program points of the member functions called from outside. *)
Inductive caller :=
| EnqInc (e : entry)        (* lines 33-36 *)
| EnqPush (e : entry)       (* lines 38-41 *)
| EnqNotify                 (* line 43 *)
| CanSwap                   (* lines 50-56 *)
| CanFinalize (oldQueue : list entry)       (* lines 58-60, 115-123 *)
| CanNotify (size remainingJobs : Z)        (* lines 125-126, 61 *)
| WaitLock                  (* lines 66-67 *)
| WaitBlocked               (* line 68: asleep in _waitVar.wait *)
| WaitWoken                 (* line 68: woken, re-takes jobsLeftMutex *)
| JoinLock                  (* lines 131-139 *)
| JoinNotify                (* line 141 *)
| JoinThreads (k : nat)     (* lines 143-147: at threads[k] *)
| Returned (v : option Z).  (* the call returned; [Some] for cancelPending *)

Record state := State {
  threads : list thread;
  _queue : list entry;
  jobsLeft : Z;
  bailout : bool;
  (* the calls of member functions made so far *)
  callers : list caller;
  (* history variables *)
  submitted : nat;          (* enqueue calls made so far *)
  executed : list nat;      (* tickets of the jobs a worker has called *)
  fault : option fault_kind
}.

Definition with_threads (ts : list thread) (s : state) : state :=
  State ts (_queue s) (jobsLeft s) (bailout s) (callers s)
        (submitted s) (executed s) (fault s).
Definition with_queue (q : list entry) (s : state) : state :=
  State (threads s) q (jobsLeft s) (bailout s) (callers s)
        (submitted s) (executed s) (fault s).
Definition with_jobsLeft (n : Z) (s : state) : state :=
  State (threads s) (_queue s) n (bailout s) (callers s)
        (submitted s) (executed s) (fault s).
Definition with_bailout (b : bool) (s : state) : state :=
  State (threads s) (_queue s) (jobsLeft s) b (callers s)
        (submitted s) (executed s) (fault s).
Definition with_callers (cs : list caller) (s : state) : state :=
  State (threads s) (_queue s) (jobsLeft s) (bailout s) cs
        (submitted s) (executed s) (fault s).
Definition with_submitted (n : nat) (s : state) : state :=
  State (threads s) (_queue s) (jobsLeft s) (bailout s) (callers s)
        n (executed s) (fault s).
Definition with_executed (l : list nat) (s : state) : state :=
  State (threads s) (_queue s) (jobsLeft s) (bailout s) (callers s)
        (submitted s) l (fault s).
Definition abort (k : fault_kind) (s : state) : state :=
  State (threads s) (_queue s) (jobsLeft s) (bailout s) (callers s)
        (submitted s) (executed s) (Some k).

Definition set_pc (i : nat) (t : thread) (w : worker) (s : state) : state :=
  with_threads (<[i := Thread w (joinable t)]> (threads s)) s.
Definition set_caller (i : nat) (c : caller) (s : state) : state :=
  with_callers (<[i := c]> (callers s)) s.

(** ** Construction (lines 17-24) *)

Inductive result (A : Type) := Normal (a : A) | Raised (e : exception).
Arguments Normal {A} a.
Arguments Raised {A} e.

(** The loop of lines 22-23: one [emplace_back] per iteration. *)
Fixpoint spawn (threadCount : nat) (ts : list thread) : list thread :=
  match threadCount with
  | O => ts
  | S n => spawn n (ts ++ [Thread WAcquire true])
  end.

(** The constructor on a platform that grants the memory and the threads
    asked for: of what lines 21-23 can throw, only the [length_error] of
    [reserve], which depends on [threadCount] alone, is modelled; a
    [bad_alloc] from [reserve] and a [system_error] from [std::thread] are
    not.  A [Normal] result for a count other than zero is therefore only
    ever used as a hypothesis. *)
Definition ConcurrentQueue (threadCount : Z) : result state :=
  if threads_max_size <? threadCount then Raised length_error (* reserve *)
  else Normal (State (spawn (Z.to_nat threadCount) []) [] 0 false [] O [] None).

(** ** Condition variables *)

Definition is_waiting (t : thread) : bool :=
  match pc t with WWaiting => true | _ => false end.
Definition wake (t : thread) : thread :=
  if is_waiting t then Thread WWoken (joinable t) else t.
Definition wake_caller (c : caller) : caller :=
  match c with WaitBlocked => WaitWoken | _ => c end.

(** [jobAvailableVar.notify_one()]: wakes one of the sleeping workers,
    [pick] says which; nothing happens when none sleeps. *)
Definition notify_one_jobAvailableVar (pick : nat) (s : state) : option state :=
  if existsb is_waiting (threads s) then
    match threads s !! pick with
    | Some t =>
        if is_waiting t then Some (with_threads (<[pick := wake t]> (threads s)) s)
        else None
    | None => None
    end
  else Some s.

Definition notify_all_jobAvailableVar (s : state) : state :=
  with_threads (wake <$> threads s) s.

Definition notify_all_waitVar (s : state) : state :=
  with_callers (wake_caller <$> callers s) s.

(** ** finalizeJobs (lines 113-127) *)

(** Lines 115-123: the asserts and the locked subtraction.  The second
    component is [remainingJobs], absent when an assert failed. *)
Definition finalizeJobs_locked (count : Z) (s : state) : state * option Z :=
  if negb (0 <? count) then (abort AssertCount s, None)
  else if negb (count <=? jobsLeft s) then (abort AssertJobsLeft s, None)
  else let remainingJobs := wrap (jobsLeft s - count) in
       (with_jobsLeft remainingJobs s, Some remainingJobs).

(** Lines 125-126. *)
Definition finalizeJobs_signal (remainingJobs : Z) (s : state) : state :=
  if remainingJobs =? 0 then notify_all_waitVar s else s.

(** ** nextJob (lines 84-111) *)

(** The predicate of the wait of line 96. *)
Definition job_available (s : state) : bool :=
  (0 <? Z.of_nat (length (_queue s))) || bailout s.

(** Lines 100-105, with queueMutex held and the predicate true. *)
Definition take_front (i : nat) (t : thread) (s : state) : option state :=
  if bailout s then Some (set_pc i t WExited s)
  else match _queue s with
       | e :: q => Some (set_pc i t (WRun e) (with_queue q s))
       | [] => None
       end.

Definition nextJob (i : nat) (o : outcome) (t : thread) (s : state) : option state :=
  match pc t with
  | WAcquire =>
      if bailout s then Some (set_pc i t WExited s)
      else if job_available s then take_front i t s
      else Some (set_pc i t WWaiting s)
  | WWaiting => None
  | WWoken =>
      if job_available s then take_front i t s
      else Some (set_pc i t WWaiting s)
  | WRun e =>
      let s := with_executed (ticket e :: executed s) s in
      match job e, o with
      | Empty, _ => Some (abort (Terminate bad_function_call) s)
      | Target _, Throws => Some (abort (Terminate job_exception) s)
      | Target _, Returns => Some (set_pc i t WFinalize s)
      end
  | WFinalize =>
      match finalizeJobs_locked 1 s with
      | (s, Some remainingJobs) => Some (set_pc i t (WNotify remainingJobs) s)
      | (s, None) => Some s
      end
  | WNotify remainingJobs =>
      Some (set_pc i t WAcquire (finalizeJobs_signal remainingJobs s))
  | WExited => None
  end.

(** ** The public member functions and joinAll *)

(** enqueue (lines 31-44). *)
Definition enqueue (i pick : nat) (c : caller) (s : state) : option state :=
  match c with
  | EnqInc e => Some (set_caller i (EnqPush e) (with_jobsLeft (wrap (jobsLeft s + 1)) s))
  | EnqPush e => Some (set_caller i EnqNotify (with_queue (_queue s ++ [e]) s))
  | EnqNotify => set_caller i (Returned None) <$> notify_one_jobAvailableVar pick s
  | _ => None
  end.

(** cancelPending (lines 48-62). *)
Definition cancelPending (i : nat) (c : caller) (s : state) : option state :=
  match c with
  | CanSwap => Some (set_caller i (CanFinalize (_queue s)) (with_queue [] s))
  | CanFinalize oldQueue =>
      let size := Z.of_nat (length oldQueue) in
      if negb (size =? 0) then
        match finalizeJobs_locked size s with
        | (s, Some remainingJobs) => Some (set_caller i (CanNotify size remainingJobs) s)
        | (s, None) => Some s
        end
      else Some (set_caller i (Returned (Some size)) s)
  | CanNotify size remainingJobs =>
      Some (set_caller i (Returned (Some size)) (finalizeJobs_signal remainingJobs s))
  | _ => None
  end.

(** waitAll (lines 64-72). *)
Definition waitAll (i : nat) (c : caller) (s : state) : option state :=
  match c with
  | WaitLock =>
      if 0 <? jobsLeft s then
        if jobsLeft s =? 0 then Some (set_caller i (Returned None) s)
        else Some (set_caller i WaitBlocked s)
      else Some (set_caller i (Returned None) s)
  | WaitBlocked => None
  | WaitWoken =>
      if jobsLeft s =? 0 then Some (set_caller i (Returned None) s)
      else Some (set_caller i WaitBlocked s)
  | _ => None
  end.

(** joinAll (lines 129-148), reached through the destructor. *)
Definition joinAll (i : nat) (c : caller) (s : state) : option state :=
  match c with
  | JoinLock =>
      if bailout s then Some (set_caller i (Returned None) s)
      else Some (set_caller i JoinNotify (with_bailout true s))
  | JoinNotify => Some (set_caller i (JoinThreads 0) (notify_all_jobAvailableVar s))
  | JoinThreads k =>
      match threads s !! k with
      | None => Some (set_caller i (Returned None) s)
      | Some x =>
          if joinable x then
            match pc x with
            | WExited =>
                Some (set_caller i (JoinThreads (S k))
                        (with_threads (<[k := Thread WExited false]> (threads s)) s))
            | _ => None
            end
          else Some (set_caller i (JoinThreads (S k)) s)
      end
  | _ => None
  end.

(** ** Interleaving *)

Inductive operation :=
| Enqueue (f : function) | CancelPending | WaitAll | JoinAll.

Inductive event :=
| Call (op : operation)             (* some thread enters a member function *)
| CallerStep (i pick : nat)         (* call number i runs to its next point *)
| WorkerStep (i : nat) (o : outcome) (* worker i runs to its next point *)
| SpuriousWorker (i : nat)          (* worker i wakes without a notify *)
| SpuriousCaller (i : nat).         (* waiter i wakes without a notify *)

Definition call (op : operation) (s : state) : state :=
  match op with
  | Enqueue f =>
      with_submitted (S (submitted s))
        (with_callers (callers s ++ [EnqInc (Entry (submitted s) f)]) s)
  | CancelPending => with_callers (callers s ++ [CanSwap]) s
  | WaitAll => with_callers (callers s ++ [WaitLock]) s
  | JoinAll => with_callers (callers s ++ [JoinLock]) s
  end.

Definition caller_step (i pick : nat) (c : caller) (s : state) : option state :=
  match c with
  | EnqInc _ | EnqPush _ | EnqNotify => enqueue i pick c s
  | CanSwap | CanFinalize _ | CanNotify _ _ => cancelPending i c s
  | WaitLock | WaitBlocked | WaitWoken => waitAll i c s
  | JoinLock | JoinNotify | JoinThreads _ => joinAll i c s
  | Returned _ => None
  end.

(** One transition; [None] when the event cannot happen in [s] (the thread
    sleeps, has returned, does not exist, or the process is dead). *)
Definition step (s : state) (ev : event) : option state :=
  match fault s with
  | Some _ => None
  | None =>
      match ev with
      | Call op => Some (call op s)
      | CallerStep i pick =>
          match callers s !! i with
          | Some c => caller_step i pick c s
          | None => None
          end
      | WorkerStep i o =>
          match threads s !! i with
          | Some t => nextJob i o t s
          | None => None
          end
      | SpuriousWorker i =>
          match threads s !! i with
          | Some t => if is_waiting t then Some (set_pc i t WWoken s) else None
          | None => None
          end
      | SpuriousCaller i =>
          match callers s !! i with
          | Some WaitBlocked => Some (set_caller i WaitWoken s)
          | _ => None
          end
      end
  end.

Fixpoint run (s : state) (tr : list event) : option state :=
  match tr with
  | [] => Some s
  | ev :: tr =>
      match step s ev with
      | Some s' => run s' tr
      | None => None
      end
  end.

(** Number of [enqueue] calls in a trace. *)
Fixpoint enqueue_calls (tr : list event) : Z :=
  match tr with
  | [] => 0
  | Call (Enqueue _) :: tr => 1 + enqueue_calls tr
  | _ :: tr => enqueue_calls tr
  end.

(** ** Scenarios *)

(** The dispatcher right after [ConcurrentQueue(n)]. *)
Definition fresh (n : nat) : state :=
  State (replicate n (Thread WAcquire true)) [] 0 false [] O [] None.

(** Two jobs are submitted to a pool of two; worker 0 takes the first,
    runs it and stands before [finalizeJobs(1)]; a cancelPending call is
    about to start. *)
Definition queued_trace : list event :=
  [Call (Enqueue (Target 7)); CallerStep 0 0; CallerStep 0 0; CallerStep 0 0;
   Call (Enqueue (Target 8)); CallerStep 1 0; CallerStep 1 0; CallerStep 1 0;
   WorkerStep 0 Returns; WorkerStep 0 Returns;
   Call CancelPending].

Definition queued_state : state :=
  State [Thread WFinalize true; Thread WAcquire true] [Entry 1 (Target 8)]
        2 false [Returned None; Returned None; CanSwap] 2 [O] None.

(** The cancelPending call has swapped the queue and holds the second job. *)
Definition busy_trace : list event := queued_trace ++ [CallerStep 2 0].

Definition busy_state : state :=
  State [Thread WFinalize true; Thread WAcquire true] [] 2 false
        [Returned None; Returned None; CanFinalize [Entry 1 (Target 8)]]
        2 [O] None.

(** The cancelPending call has decremented the counter. *)
Definition cancelled_state : state :=
  State [Thread WFinalize true; Thread WAcquire true] [] 1 false
        [Returned None; Returned None; CanNotify 1 1] 2 [O] None.

(** The one job of a pool of one has thrown. *)
Definition dead_state : state :=
  State [Thread (WRun (Entry 0 (Target 7))) true] [] 1 false [Returned None]
        1 [O] (Some (Terminate job_exception)).

(** A job is submitted to a pool without workers. *)
Definition unserved_state : state :=
  State [] [Entry 0 (Target 7)] 1 false [Returned None] 1 [] None.

(** A waitAll call is entered while a job is queued in a pool of one; it
    goes to sleep, the worker takes the job, runs it, subtracts it and
    wakes the call. *)
Definition waiter_entered_state : state :=
  State [Thread WAcquire true] [Entry 0 (Target 7)] 1 false
        [Returned None; WaitLock] 1 [] None.

Definition waiter_woken_state : state :=
  State [Thread WAcquire true] [] 0 false [Returned None; WaitWoken] 1 [O] None.

(** A first joinAll has set the flag and stands before its notify; a
    second joinAll call is about to start. *)
Definition shutdown_state : state :=
  State [Thread WAcquire true] [] 0 true [JoinNotify; JoinLock] O [] None.

(** ** Measures used by the invariants *)

Definition total {A : Type} (f : A -> Z) (l : list A) : Z :=
  foldr (fun x acc => f x + acc) 0 l.

(** Jobs counted in [jobsLeft] that are neither in [_queue] nor finished:
    an [enqueue] between its two locked regions, a [cancelPending] holding
    the swapped-out queue, a worker between [pop] and its decrement. *)
Definition caller_owed (c : caller) : Z :=
  match c with
  | EnqPush _ => 1
  | CanFinalize oldQueue => Z.of_nat (length oldQueue)
  | _ => 0
  end.

Definition worker_owed (t : thread) : Z :=
  match pc t with
  | WRun _ | WFinalize => 1
  | _ => 0
  end.

(** An [enqueue] that has not incremented [jobsLeft] yet. *)
Definition caller_pending (c : caller) : Z :=
  match c with EnqInc _ => 1 | _ => 0 end.

Definition owed (s : state) : Z :=
  Z.of_nat (length (_queue s)) + total caller_owed (callers s)
  + total worker_owed (threads s).

Definition no_assert_failure (s : state) : Prop :=
  match fault s with
  | Some AssertCount | Some AssertJobsLeft => False
  | _ => True
  end.

(** The counter records exactly the jobs that are owed, and no assert of
    [finalizeJobs] has failed. *)
Definition accounted (s : state) : Prop :=
  jobsLeft s = owed s
  /\ owed s + total caller_pending (callers s) <= Z.of_nat (submitted s)
  /\ no_assert_failure s.

(** Occurrences of ticket [t]: in [_queue], in the hands of an [enqueue]
    or of a worker, and in the log of called jobs. *)
Definition hit (t x : nat) : Z := if Nat.eqb x t then 1 else 0.

Definition caller_occ (t : nat) (c : caller) : Z :=
  match c with
  | EnqInc e | EnqPush e => hit t (ticket e)
  | _ => 0
  end.

Definition worker_occ (t : nat) (th : thread) : Z :=
  match pc th with
  | WRun e => hit t (ticket e)
  | _ => 0
  end.

Definition occ (t : nat) (s : state) : Z :=
  total (fun e => hit t (ticket e)) (_queue s) + total (caller_occ t) (callers s)
  + total (worker_occ t) (threads s) + total (hit t) (executed s).

(** No ticket occurs twice, none is from the future. *)
Definition tickets_ok (s : state) : Prop :=
  fault s = None ->
  forall t, occ t s <= 1 /\ ((submitted s <= t)%nat -> occ t s = 0).

(** The shared fields of two states agree: everything but [callers]. *)
Definition same_shared (s s' : state) : Prop :=
  threads s' = threads s /\ _queue s' = _queue s /\ jobsLeft s' = jobsLeft s
  /\ bailout s' = bailout s /\ submitted s' = submitted s
  /\ executed s' = executed s /\ fault s' = fault s.

(** The program points of a cancelPending call after its swap took
    [oldQueue]: before the decrement, before the notify, returned. *)
Definition cancel_point (oldQueue : list entry) (c : caller) : Prop :=
  c = CanFinalize oldQueue
  \/ (exists r, c = CanNotify (Z.of_nat (length oldQueue)) r)
  \/ c = Returned (Some (Z.of_nat (length oldQueue))).

(** The program points of [waitAll]. *)
Definition in_waitAll (c : caller) : Prop :=
  c = WaitLock \/ c = WaitBlocked \/ c = WaitWoken.

(** The events of call [i] itself, and a trace without them. *)
Definition own_event (i : nat) (ev : event) : bool :=
  match ev with
  | CallerStep j _ | SpuriousCaller j => Nat.eqb j i
  | _ => false
  end.

Definition others (i : nat) (tr : list event) : list event :=
  filter (fun ev => own_event i ev = false) tr.

Definition waiting_or_returned (c : caller) : Prop :=
  in_waitAll c \/ c = Returned None.

(** * Further definitions *)

(** ** Counting threads and calls by program point *)

Definition exited (t : thread) : Z :=
  match pc t with WExited => 1 | _ => 0 end.

Definition asleep (t : thread) : Z :=
  match pc t with WWaiting => 1 | _ => 0 end.

(** In the loop of [nextJob] and not asleep. *)
Definition awake (t : thread) : Z :=
  match pc t with WWaiting | WExited => 0 | _ => 1 end.

Definition joined (t : thread) : Z :=
  if joinable t then 0 else 1.

(** A thread or a call that has read [remainingJobs = 0] and stands
    before its [_waitVar.notify_all()]. *)
Definition worker_will_notify (t : thread) : Z :=
  match pc t with WNotify r => if r =? 0 then 1 else 0 | _ => 0 end.

Definition caller_will_notify (c : caller) : Z :=
  match c with CanNotify _ r => if r =? 0 then 1 else 0 | _ => 0 end.

(** An [enqueue] before its [notify_one], a [joinAll] before its
    [notify_all], a [waitAll] asleep. *)
Definition at_EnqNotify (c : caller) : Z :=
  match c with EnqNotify => 1 | _ => 0 end.

Definition at_JoinNotify (c : caller) : Z :=
  match c with JoinNotify => 1 | _ => 0 end.

Definition at_WaitBlocked (c : caller) : Z :=
  match c with WaitBlocked => 1 | _ => 0 end.

(** Workers exit and are joined only after [bailout] is set. *)
Definition pool_intact (s : state) : Prop :=
  bailout s = false ->
  total exited (threads s) = 0 /\ total joined (threads s) = 0.

(** No wake-up of a worker is lost. *)
Definition workers_alert (s : state) : Prop :=
  pool_intact s
  /\ total exited (threads s) + total asleep (threads s) + total awake (threads s)
     = Z.of_nat (length (threads s))
  /\ (bailout s = false -> _queue s <> [] -> threads s <> [] ->
      1 <= total awake (threads s) + total at_EnqNotify (callers s))
  /\ (bailout s = true ->
      1 <= total at_JoinNotify (callers s) \/ total asleep (threads s) = 0).

(** No wake-up of a waitAll is lost. *)
Definition waiters_alert (s : state) : Prop :=
  1 <= total at_WaitBlocked (callers s) ->
  jobsLeft s <> 0
  \/ 1 <= total worker_will_notify (threads s)
          + total caller_will_notify (callers s).

Definition at_JoinLock (c : caller) : Z :=
  match c with JoinLock => 1 | _ => 0 end.

(** [joinAll] has not been entered yet. *)
Definition not_shut_down (s : state) : Prop :=
  bailout s = false /\ total at_JoinLock (callers s) = 0.

Definition is_Call_JoinAll (ev : event) : bool :=
  match ev with Call JoinAll => true | _ => false end.

(** ** Joining *)

(** A thread that is not joinable any more and still runs. *)
Definition detached_running (t : thread) : Z :=
  if joinable t then 0 else match pc t with WExited => 0 | _ => 1 end.

(** Every [joinAll] in its loop has joined the threads before its index. *)
Definition joined_prefix (s : state) : Prop :=
  forall i k, callers s !! i = Some (JoinThreads k) ->
  forall j t, (j < k)%nat -> threads s !! j = Some t -> t = Thread WExited false.

Definition joining (s : state) : Prop :=
  total detached_running (threads s) = 0 /\ joined_prefix s.

(** ** Which jobs are called *)

Definition at_CanSwap (c : caller) : Z :=
  match c with CanSwap => 1 | _ => 0 end.

Definition is_Call_CancelPending (ev : event) : bool :=
  match ev with Call CancelPending => true | _ => false end.

(** Without cancelPending every ticket handed out is somewhere, once. *)
Definition all_tickets_kept (s : state) : Prop :=
  fault s = None ->
  total at_CanSwap (callers s) = 0
  /\ forall t, (t < submitted s)%nat -> occ t s = 1.

(** Ticket [t] in the hands of a worker or in the log of called jobs. *)
Definition carried (t : nat) (s : state) : Z :=
  total (worker_occ t) (threads s) + total (hit t) (executed s).

(** Ticket [t] in the queue or on its way into it. *)
Definition pending (t : nat) (s : state) : Z :=
  total (fun e => hit t (ticket e)) (_queue s) + total (caller_occ t) (callers s).

(** [e1] stands before [e2] in the queue and [e2] has not been called, or
    [e1] has left the queue for good. *)
Definition in_order (e1 e2 : entry) (s : state) : Prop :=
  ((exists l1 l2 l3, _queue s = l1 ++ e1 :: l2 ++ e2 :: l3)
   /\ ticket e2 ∉ executed s)
  \/ (pending (ticket e1) s = 0 /\ (ticket e1 < submitted s)%nat).

(** ** Further scenarios *)

(** One job submitted to a pool of one, called, returned and subtracted. *)
Definition served_trace : list event :=
  [Call (Enqueue (Target 7)); CallerStep 0 0; CallerStep 0 0; CallerStep 0 0;
   WorkerStep 0 Returns; WorkerStep 0 Returns; WorkerStep 0 Returns].

Definition served_state : state :=
  State [Thread (WNotify 0) true] [] 0 false [Returned None] 1 [O] None.

(** Two jobs queued in a pool of one; then both taken and called. *)
Definition two_queued_trace : list event :=
  [Call (Enqueue (Target 7)); CallerStep 0 0; CallerStep 0 0; CallerStep 0 0;
   Call (Enqueue (Target 8)); CallerStep 1 0; CallerStep 1 0; CallerStep 1 0].

Definition two_queued_state : state :=
  State [Thread WAcquire true] [Entry 0 (Target 7); Entry 1 (Target 8)] 2 false
        [Returned None; Returned None] 2 [] None.

Definition serve_two : list event :=
  [WorkerStep 0 Returns; WorkerStep 0 Returns; WorkerStep 0 Returns;
   WorkerStep 0 Returns; WorkerStep 0 Returns; WorkerStep 0 Returns].

Definition two_served_state : state :=
  State [Thread WFinalize true] [] 1 false [Returned None; Returned None]
        2 [1%nat; O] None.

(** A job is queued when [joinAll] sets the flag; then the worker leaves. *)
Definition closing_trace : list event :=
  [Call (Enqueue (Target 7)); CallerStep 0 0; CallerStep 0 0;
   Call JoinAll; CallerStep 1 0].

Definition closing_state : state :=
  State [Thread WAcquire true] [Entry 0 (Target 7)] 1 true
        [EnqNotify; JoinNotify] 1 [] None.

Definition closed_state : state :=
  State [Thread WExited true] [Entry 0 (Target 7)] 1 true
        [EnqNotify; JoinNotify] 1 [] None.

(** The worker sleeps when [joinAll] sets the flag; then it is woken,
    leaves and is joined. *)
Definition joining_trace : list event :=
  [WorkerStep 0 Returns; Call JoinAll; CallerStep 0 0].

Definition joining_state : state :=
  State [Thread WWaiting true] [] 0 true [JoinNotify] O [] None.

Definition joined_trace : list event :=
  joining_trace ++ [CallerStep 0 0; WorkerStep 0 Returns; CallerStep 0 0].

Definition joined_state : state :=
  State [Thread WExited false] [] 0 true [JoinThreads 1] O [] None.

(** A waitAll call went to sleep while an [enqueue] was under way. *)
Definition waiting_trace : list event :=
  [Call (Enqueue (Target 7)); CallerStep 0 0; Call WaitAll; CallerStep 1 0].

Definition waiting_state : state :=
  State [Thread WAcquire true] [] 1 false
        [EnqPush (Entry 0 (Target 7)); WaitBlocked] 1 [] None.

(** * Proofs *)

(** ** The scenarios run *)

Example queued_trace_runs : run (fresh 2) queued_trace = Some queued_state.
Proof. reflexivity. Qed.

Example busy_trace_runs : run (fresh 2) busy_trace = Some busy_state.
Proof. reflexivity. Qed.

(** From [busy_state]: the cancelPending call finishes with result 1, the
    worker finishes its job, and a waitAll entered then returns at once. *)
Example cancel_then_waitAll :
  run busy_state [CallerStep 2 0; CallerStep 2 0; WorkerStep 0 Returns;
                  WorkerStep 0 Returns; Call WaitAll; CallerStep 3 0]
  = Some (State [Thread WAcquire true; Thread WAcquire true] [] 0 false
                [Returned None; Returned None; Returned (Some 1); Returned None]
                2 [O] None).
Proof. reflexivity. Qed.

(** A waitAll entered while a job is pending sleeps, is woken by the
    worker's notify and returns. *)
Example waitAll_sleeps_and_wakes :
  run (fresh 1) [Call (Enqueue (Target 7)); CallerStep 0 0; CallerStep 0 0;
                 CallerStep 0 0; Call WaitAll; CallerStep 1 0;
                 WorkerStep 0 Returns; WorkerStep 0 Returns;
                 WorkerStep 0 Returns; WorkerStep 0 Returns; CallerStep 1 0]
  = Some (State [Thread WAcquire true] [] 0 false
                [Returned None; Returned None] 1 [O] None)
  /\ run (fresh 1) [Call (Enqueue (Target 7)); CallerStep 0 0; CallerStep 0 0;
                    CallerStep 0 0; Call WaitAll; CallerStep 1 0; CallerStep 1 0]
     = None.
Proof. split; reflexivity. Qed.

Example waiter_states_run :
  run (fresh 1) [Call (Enqueue (Target 7)); CallerStep 0 0; CallerStep 0 0;
                 CallerStep 0 0; Call WaitAll]
  = Some waiter_entered_state
  /\ run waiter_entered_state
         [CallerStep 1 0; WorkerStep 0 Returns; WorkerStep 0 Returns;
          WorkerStep 0 Returns; WorkerStep 0 Returns]
     = Some waiter_woken_state.
Proof. split; reflexivity. Qed.

(** Shutdown: the flag is set, the sleeping worker is woken, returns, and
    is joined. *)
Example shutdown_joins :
  run (fresh 1) [WorkerStep 0 Returns; Call JoinAll; CallerStep 0 0;
                 CallerStep 0 0; WorkerStep 0 Returns; CallerStep 0 0;
                 CallerStep 0 0]
  = Some (State [Thread WExited false] [] 0 true [Returned None] O [] None).
Proof. reflexivity. Qed.

Section Total.
Context {A : Type} (f : A -> Z).

Lemma total_app (l1 l2 : list A) : total f (l1 ++ l2) = total f l1 + total f l2.
Proof. induction l1 as [|x l1 IH]; simpl; lia. Qed.

Lemma total_insert (l : list A) (i : nat) (x y : A) :
  l !! i = Some y -> total f (<[i := x]> l) = total f l - f y + f x.
Proof.
  revert i; induction l as [|z l IH]; intros [|i] Hi; simplify_eq/=; try lia.
  rewrite (IH _ Hi). lia.
Qed.

Lemma total_fmap (g : A -> A) (l : list A) :
  (forall x, f (g x) = f x) -> total f (g <$> l) = total f l.
Proof. intros Hg. induction l as [|x l IH]; csimpl; [done|]. rewrite Hg, IH. done. Qed.

Lemma total_nonneg (l : list A) : (forall x, 0 <= f x) -> 0 <= total f l.
Proof. intros Hf. induction l as [|x l IH]; simpl; [lia|]. specialize (Hf x). lia. Qed.

Lemma total_lookup_le (l : list A) (i : nat) (x : A) :
  (forall y, 0 <= f y) -> l !! i = Some x -> f x <= total f l.
Proof.
  intros Hf. revert i; induction l as [|z l IH]; intros [|i] Hi; simplify_eq/=.
  - pose proof (total_nonneg l Hf). lia.
  - specialize (IH _ Hi). specialize (Hf z). lia.
Qed.
End Total.

Lemma wrap_small z : 0 <= z < size_modulus -> wrap z = z.
Proof. intros. unfold wrap. apply Z.mod_small. done. Qed.


Lemma is_waiting_pc t : is_waiting t = true -> pc t = WWaiting.
Proof. destruct t as [[] ?]; unfold is_waiting; simpl; congruence. Qed.

Lemma caller_owed_nonneg c : 0 <= caller_owed c.
Proof. destruct c; unfold caller_owed; lia. Qed.
Lemma worker_owed_nonneg t : 0 <= worker_owed t.
Proof. destruct t as [[] ?]; unfold worker_owed; simpl; lia. Qed.
Lemma caller_pending_nonneg c : 0 <= caller_pending c.
Proof. destruct c; simpl; lia. Qed.
Lemma worker_owed_wake t : worker_owed (wake t) = worker_owed t.
Proof. destruct t as [[] ?]; reflexivity. Qed.
Lemma caller_owed_wake c : caller_owed (wake_caller c) = caller_owed c.
Proof. destruct c; reflexivity. Qed.
Lemma caller_pending_wake c : caller_pending (wake_caller c) = caller_pending c.
Proof. destruct c; reflexivity. Qed.

Lemma hit_nonneg t x : 0 <= hit t x.
Proof. unfold hit. destruct (Nat.eqb x t); lia. Qed.

Lemma hit_same t : hit t t = 1.
Proof. unfold hit. by rewrite Nat.eqb_refl. Qed.

Lemma hit_other t x : x <> t -> hit t x = 0.
Proof. intros H. unfold hit. by apply Nat.eqb_neq in H as ->. Qed.

Lemma caller_occ_nonneg t c : 0 <= caller_occ t c.
Proof. destruct c; simpl; try lia; apply hit_nonneg. Qed.

Lemma worker_occ_nonneg t th : 0 <= worker_occ t th.
Proof. destruct th as [[] ?]; unfold worker_occ; simpl; try lia; apply hit_nonneg. Qed.

Lemma caller_occ_wake t c : caller_occ t (wake_caller c) = caller_occ t c.
Proof. destruct c; reflexivity. Qed.

Lemma worker_occ_wake t th : worker_occ t (wake th) = worker_occ t th.
Proof. destruct th as [[] ?]; reflexivity. Qed.

Lemma total_elem {A : Type} (f : A -> Z) (l : list A) (x : A) :
  (forall y, 0 <= f y) -> x ∈ l -> f x <= total f l.
Proof.
  intros Hf Hx. apply list_elem_of_lookup in Hx as [i Hi].
  by apply (total_lookup_le f l i x).
Qed.

(** Case analysis on one transition. *)
Ltac bool_facts :=
  repeat match goal with
  | H : negb _ = true |- _ => apply negb_true_iff in H
  | H : negb _ = false |- _ => apply negb_false_iff in H
  | H : (_ <? _) = true |- _ => apply Z.ltb_lt in H
  | H : (_ <? _) = false |- _ => apply Z.ltb_ge in H
  | H : (_ <=? _) = true |- _ => apply Z.leb_le in H
  | H : (_ <=? _) = false |- _ => apply Z.leb_gt in H
  | H : (_ =? _) = true |- _ => apply Z.eqb_eq in H
  | H : (_ =? _) = false |- _ => apply Z.eqb_neq in H
  | H : is_waiting _ = true |- _ => apply is_waiting_pc in H
  end.

Ltac step_cases H :=
  unfold step, call, caller_step, nextJob, enqueue, cancelPending, waitAll, joinAll,
    take_front, notify_one_jobAvailableVar, finalizeJobs_locked,
    finalizeJobs_signal in H;
  repeat case_match; simplify_eq/=; bool_facts;
  repeat match goal with
  | t : thread |- _ => destruct t; simplify_eq/=
  end.

Ltac totals :=
  repeat match goal with
  | |- context [total ?f (<[?i := ?x]> (?g <$> ?l))] =>
      match goal with
      | H : l !! i = Some ?y |- _ =>
          rewrite (total_insert f (g <$> l) i x (g y))
            by (rewrite list_lookup_fmap, H; reflexivity)
      end
  | |- context [total ?f (<[?i := ?x]> ?l)] =>
      match goal with
      | H : l !! i = Some ?y |- _ => rewrite (total_insert f l i x y H)
      end
  | |- context [total _ (_ ++ _)] => rewrite total_app
  | |- context [total caller_owed (wake_caller <$> _)] =>
      rewrite (total_fmap caller_owed wake_caller) by apply caller_owed_wake
  | |- context [total caller_pending (wake_caller <$> _)] =>
      rewrite (total_fmap caller_pending wake_caller) by apply caller_pending_wake
  | |- context [total worker_owed (wake <$> _)] =>
      rewrite (total_fmap worker_owed wake) by apply worker_owed_wake
  | |- context [total (caller_occ ?t) (wake_caller <$> _)] =>
      rewrite (total_fmap (caller_occ t) wake_caller) by apply caller_occ_wake
  | |- context [total (worker_occ ?t) (wake <$> _)] =>
      rewrite (total_fmap (worker_occ t) wake) by apply worker_occ_wake
  end.

Ltac owed_facts s :=
  pose proof (total_nonneg caller_owed (callers s) caller_owed_nonneg);
  pose proof (total_nonneg worker_owed (threads s) worker_owed_nonneg);
  pose proof (total_nonneg caller_pending (callers s) caller_pending_nonneg);
  repeat match goal with
  | H : callers s !! _ = Some ?c |- _ =>
      lazymatch goal with
      | _ : caller_owed c <= total caller_owed (callers s) |- _ => fail
      | _ =>
        pose proof (total_lookup_le caller_owed _ _ _ caller_owed_nonneg H);
        pose proof (total_lookup_le caller_pending _ _ _ caller_pending_nonneg H)
      end
  | H : threads s !! _ = Some ?t |- _ =>
      lazymatch goal with
      | _ : worker_owed t <= total worker_owed (threads s) |- _ => fail
      | _ => pose proof (total_lookup_le worker_owed _ _ _ worker_owed_nonneg H)
      end
  end.

(** ** The counter invariant *)

Lemma accounted_step s ev s' :
  accounted s -> step s ev = Some s' ->
  Z.of_nat (submitted s') < size_modulus -> accounted s'.
Proof.
  intros (Hj & Hle & Hf) H Hsub. unfold accounted, owed, no_assert_failure in *.
  step_cases H; owed_facts s; simpl in *; totals;
    unfold worker_owed, wake in *; simpl in *;
    rewrite ?length_app; simpl.
  all: try (rewrite wrap_small by lia).
  all: split_and!; (done || lia).
Qed.

Lemma spawn_replicate n ts :
  spawn n ts = ts ++ replicate n (Thread WAcquire true).
Proof.
  revert ts; induction n as [|n IH]; intros ts; simpl.
  - by rewrite app_nil_r.
  - rewrite IH, <- app_assoc. done.
Qed.

Lemma total_replicate {A : Type} (f : A -> Z) (n : nat) (x : A) :
  total f (replicate n x) = Z.of_nat n * f x.
Proof. induction n as [|n IH]; simpl; [lia|]. rewrite IH. lia. Qed.

Lemma ConcurrentQueue_Normal threadCount s0 :
  ConcurrentQueue threadCount = Normal s0 ->
  threadCount <= threads_max_size
  /\ s0 = fresh (Z.to_nat threadCount).
Proof.
  unfold ConcurrentQueue. destruct (threads_max_size <? threadCount) eqn:E;
    intros H; simplify_eq. apply Z.ltb_ge in E. unfold fresh. by rewrite spawn_replicate.
Qed.

Lemma accounted_init threadCount s0 :
  ConcurrentQueue threadCount = Normal s0 -> accounted s0.
Proof.
  intros H. apply ConcurrentQueue_Normal in H as [_ ->].
  unfold accounted, owed, no_assert_failure. simpl.
  rewrite total_replicate. unfold worker_owed. simpl. lia.
Qed.

Lemma run_app s tr1 tr2 :
  run s (tr1 ++ tr2) =
  match run s tr1 with Some s1 => run s1 tr2 | None => None end.
Proof.
  revert s; induction tr1 as [|ev tr1 IH]; intros s; simpl; [done|].
  destruct (step s ev); [apply IH | done].
Qed.

Lemma enqueue_calls_app tr1 tr2 :
  enqueue_calls (tr1 ++ tr2) = enqueue_calls tr1 + enqueue_calls tr2.
Proof.
  induction tr1 as [|[[]| | | |] tr1 IH]; simpl; lia.
Qed.

Lemma enqueue_calls_nonneg tr : 0 <= enqueue_calls tr.
Proof. induction tr as [|[[]| | | |] tr IH]; simpl; lia. Qed.

Lemma submitted_step_calls s ev s' :
  step s ev = Some s' ->
  Z.of_nat (submitted s') = Z.of_nat (submitted s) + enqueue_calls [ev].
Proof. intros H. step_cases H; lia. Qed.

Lemma submitted_run s tr s' :
  run s tr = Some s' ->
  Z.of_nat (submitted s') = Z.of_nat (submitted s) + enqueue_calls tr.
Proof.
  revert s; induction tr as [|ev tr IH]; intros s H; simpl in H.
  - simplify_eq. simpl. lia.
  - destruct (step s ev) as [s1|] eqn:E; [|done].
    rewrite (IH _ H), (submitted_step_calls _ _ _ E).
    change (ev :: tr) with ([ev] ++ tr). rewrite enqueue_calls_app. lia.
Qed.

Lemma accounted_run s tr s' :
  accounted s -> run s tr = Some s' ->
  Z.of_nat (submitted s') < size_modulus -> accounted s'.
Proof.
  revert s; induction tr as [|ev tr IH]; intros s Hs H Hsub; simpl in H.
  - by simplify_eq.
  - destruct (step s ev) as [s1|] eqn:E; [|done].
    apply (IH s1); [|done|done].
    apply (accounted_step s ev); [done|done|].
    pose proof (submitted_run _ _ _ H). pose proof (enqueue_calls_nonneg tr). lia.
Qed.

(** Every state the dispatcher can reach while fewer than [2^64] jobs have
    been submitted is accounted. *)
Lemma accounted_reachable threadCount s0 tr s :
  ConcurrentQueue threadCount = Normal s0 ->
  run s0 tr = Some s ->
  enqueue_calls tr < size_modulus ->
  accounted s.
Proof.
  intros H0 Hrun Hlt. apply (accounted_run s0 tr); [by eapply accounted_init|done|].
  rewrite (submitted_run _ _ _ Hrun).
  apply ConcurrentQueue_Normal in H0 as [_ ->]. simpl. lia.
Qed.

(** ** The invariant of line 77 *)

(** C2: in every state the dispatcher reaches from its construction, under
    any interleaving of enqueue, cancelPending, waitAll and joinAll calls
    with the workers' steps, [jobsLeft >= _queue.size()], as long as fewer
    than [2^64] jobs have been submitted (the counter is a [size_t]). *)
Theorem jobsLeft_ge_queue_size threadCount s0 tr s :
  ConcurrentQueue threadCount = Normal s0 ->
  run s0 tr = Some s ->
  enqueue_calls tr < size_modulus ->
  Z.of_nat (length (_queue s)) <= jobsLeft s.
Proof.
  intros H0 Hrun Hlt.
  destruct (accounted_reachable _ _ _ _ H0 Hrun Hlt) as (Hj & _ & _).
  rewrite Hj. unfold owed.
  pose proof (total_nonneg caller_owed (callers s) caller_owed_nonneg).
  pose proof (total_nonneg worker_owed (threads s) worker_owed_nonneg).
  lia.
Qed.

Lemma jobsLeft_ge_queue_size_witness :
  Z.of_nat (length (_queue busy_state)) <= jobsLeft busy_state.
Proof.
  apply (jobsLeft_ge_queue_size 2 (fresh 2) busy_trace busy_state);
    [reflexivity | reflexivity | vm_compute; reflexivity].
Defined.

(** ** The asserts of finalizeJobs *)

Lemma finalizeJobs_locked_ok count s :
  0 < count <= jobsLeft s -> jobsLeft s < size_modulus ->
  finalizeJobs_locked count s
  = (with_jobsLeft (jobsLeft s - count) s, Some (jobsLeft s - count)).
Proof.
  intros [H1 H2] H3. unfold finalizeJobs_locked.
  destruct (Z.ltb_spec 0 count); [|lia]. destruct (Z.leb_spec count (jobsLeft s)); [|lia].
  simpl. by rewrite wrap_small by lia.
Qed.

Lemma accounted_jobsLeft_lt s :
  accounted s -> Z.of_nat (submitted s) < size_modulus ->
  0 <= jobsLeft s < size_modulus.
Proof.
  intros (Hj & Hle & _) Hlt. unfold owed in *.
  pose proof (total_nonneg caller_owed (callers s) caller_owed_nonneg).
  pose proof (total_nonneg worker_owed (threads s) worker_owed_nonneg).
  pose proof (total_nonneg caller_pending (callers s) caller_pending_nonneg).
  lia.
Qed.

(** What the counter invariant says at the two call sites of finalizeJobs. *)
Lemma finalizeJobs_asserts_reachable threadCount s0 tr s :
  ConcurrentQueue threadCount = Normal s0 ->
  run s0 tr = Some s ->
  enqueue_calls tr < size_modulus ->
  (fault s <> Some AssertCount /\ fault s <> Some AssertJobsLeft)
  /\ (forall i t, threads s !! i = Some t -> pc t = WFinalize ->
        1 <= jobsLeft s
        /\ finalizeJobs_locked 1 s
           = (with_jobsLeft (jobsLeft s - 1) s, Some (jobsLeft s - 1)))
  /\ (forall i oldQueue, callers s !! i = Some (CanFinalize oldQueue) ->
        let count := Z.of_nat (length oldQueue) in
        (count = 0 ->
           cancelPending i (CanFinalize oldQueue) s
           = Some (set_caller i (Returned (Some 0)) s))
        /\ (count <> 0 ->
              0 < count <= jobsLeft s
              /\ finalizeJobs_locked count s
                 = (with_jobsLeft (jobsLeft s - count) s,
                    Some (jobsLeft s - count)))).
Proof.
  intros H0 Hrun Hlt.
  pose proof (accounted_reachable _ _ _ _ H0 Hrun Hlt) as Hacc.
  assert (Z.of_nat (submitted s) < size_modulus) as Hsub.
  { rewrite (submitted_run _ _ _ Hrun).
    apply ConcurrentQueue_Normal in H0 as [_ ->]. simpl. lia. }
  pose proof (accounted_jobsLeft_lt _ Hacc Hsub) as Hb.
  destruct Hacc as (Hj & Hle & Hf). unfold owed in Hj.
  pose proof (total_nonneg caller_owed (callers s) caller_owed_nonneg).
  pose proof (total_nonneg worker_owed (threads s) worker_owed_nonneg).
  split_and!.
  - intros E. unfold no_assert_failure in Hf. by rewrite E in Hf.
  - intros E. unfold no_assert_failure in Hf. by rewrite E in Hf.
  - intros i t Ht Hpc.
    pose proof (total_lookup_le worker_owed _ _ _ worker_owed_nonneg Ht) as Hw.
    unfold worker_owed at 1 in Hw. rewrite Hpc in Hw.
    split; [lia|]. apply finalizeJobs_locked_ok; lia.
  - intros i oldQueue Hc count.
    pose proof (total_lookup_le caller_owed _ _ _ caller_owed_nonneg Hc) as Hw.
    simpl in Hw. fold count in Hw. split.
    + intros E. simpl. fold count. rewrite E. done.
    + intros Hne. split; [lia|]. apply finalizeJobs_locked_ok; lia.
Qed.


(** C9: in every reachable state (fewer than [2^64] jobs submitted) no
    assert of finalizeJobs has failed, and at both call sites the asserts
    hold and the subtraction does not wrap: a worker calls it with
    [count = 1 <= jobsLeft], cancelPending calls it only for a non-empty
    swapped-out queue, with [0 < count <= jobsLeft]. *)
Theorem finalizeJobs_asserts_hold threadCount s0 tr s :
  ConcurrentQueue threadCount = Normal s0 ->
  run s0 tr = Some s ->
  enqueue_calls tr < size_modulus ->
  (fault s <> Some AssertCount /\ fault s <> Some AssertJobsLeft)
  /\ (forall i t, threads s !! i = Some t -> pc t = WFinalize ->
        1 <= jobsLeft s
        /\ finalizeJobs_locked 1 s
           = (with_jobsLeft (jobsLeft s - 1) s, Some (jobsLeft s - 1)))
  /\ (forall i oldQueue, callers s !! i = Some (CanFinalize oldQueue) ->
        let count := Z.of_nat (length oldQueue) in
        (count = 0 ->
           cancelPending i (CanFinalize oldQueue) s
           = Some (set_caller i (Returned (Some 0)) s))
        /\ (count <> 0 ->
              0 < count <= jobsLeft s
              /\ finalizeJobs_locked count s
                 = (with_jobsLeft (jobsLeft s - count) s,
                    Some (jobsLeft s - count)))).
Proof. apply finalizeJobs_asserts_reachable. Qed.

Lemma finalizeJobs_asserts_hold_witness :
  1 <= jobsLeft busy_state
  /\ finalizeJobs_locked 1 busy_state = (with_jobsLeft 1 busy_state, Some 1).
Proof.
  apply (finalizeJobs_asserts_hold 2 (fresh 2) busy_trace busy_state
           ltac:(reflexivity) ltac:(reflexivity) ltac:(vm_compute; reflexivity))
    with (i := O) (t := Thread WFinalize true); reflexivity.
Defined.

(** ** Frame lemmas *)

Lemma step_fault s ev s' : step s ev = Some s' -> fault s = None.
Proof. unfold step. by destruct (fault s). Qed.

Lemma same_shared_set_caller i c s : same_shared s (set_caller i c s).
Proof. by repeat split. Qed.

(** The program point of a call changes only by a step of that call, or
    when a notify moves a sleeping waiter to [WaitWoken]. *)
Lemma caller_other s ev s' i c :
  step s ev = Some s' -> callers s !! i = Some c ->
  (forall p, ev <> CallerStep i p) -> ev <> SpuriousCaller i ->
  callers s' !! i = Some c
  \/ (c = WaitBlocked /\ callers s' !! i = Some WaitWoken).
Proof.
  intros H Hc Hne1 Hne2.
  assert (forall cs : list caller, cs !! i = Some c ->
            (wake_caller <$> cs) !! i = Some c
            \/ (c = WaitBlocked /\ (wake_caller <$> cs) !! i = Some WaitWoken)) as Hw.
  { intros cs Hcs. rewrite list_lookup_fmap, Hcs. destruct c; simpl; auto. }
  step_cases H;
    try (rewrite lookup_app_l by (by eapply lookup_lt_Some); by left);
    try (by left);
    try (destruct (decide (i = i0)) as [->|];
         [first [by destruct (Hne1 pick) | by destruct Hne2]|
          rewrite list_lookup_insert_ne by done; auto]);
    try (by apply Hw).
Qed.

Lemma bailout_step s ev s' :
  step s ev = Some s' -> bailout s = true -> bailout s' = true.
Proof. intros H Hb. step_cases H; done. Qed.

Lemma bailout_run s tr s' :
  run s tr = Some s' -> bailout s = true -> bailout s' = true.
Proof.
  revert s; induction tr as [|ev tr IH]; intros s H Hb; simpl in H.
  - by simplify_eq.
  - destruct (step s ev) as [s1|] eqn:E; [|done].
    eauto using bailout_step.
Qed.

Lemma insert_last {A : Type} (l : list A) (x y : A) :
  <[length l := x]> (l ++ [y]) = l ++ [x].
Proof.
  replace (length l) with (length l + 0)%nat by lia. by rewrite insert_app_r.
Qed.

(** ** joinAll *)

(** C7: once a joinAll has passed its locked region (so the flag is set),
    at any later time a further joinAll call runs one step, from its entry
    to its return, and that step changes no field of the dispatcher; it
    does not fault. *)
Theorem joinAll_idempotent s i p s1 tr s2 k q :
  callers s !! i = Some JoinLock ->
  step s (CallerStep i p) = Some s1 ->
  run s1 tr = Some s2 ->
  fault s2 = None ->
  callers s2 !! k = Some JoinLock ->
  bailout s2 = true
  /\ step s2 (CallerStep k q) = Some (set_caller k (Returned None) s2)
  /\ same_shared s2 (set_caller k (Returned None) s2).
Proof.
  intros Hc H Hrun Hf Hk.
  assert (bailout s1 = true) as Hb1.
  { unfold step in H. destruct (fault s); [done|]. rewrite Hc in H. simpl in H.
    destruct (bailout s) eqn:E; simplify_eq; done. }
  pose proof (bailout_run _ _ _ Hrun Hb1) as Hb2.
  split; [done|]. split; [|apply same_shared_set_caller].
  unfold step. rewrite Hf, Hk. simpl. by rewrite Hb2.
Qed.

Lemma joinAll_idempotent_witness :
  bailout shutdown_state = true
  /\ step shutdown_state (CallerStep 1 0)
     = Some (set_caller 1 (Returned None) shutdown_state)
  /\ same_shared shutdown_state (set_caller 1 (Returned None) shutdown_state).
Proof.
  apply (joinAll_idempotent (call JoinAll (fresh 1)) 0 0
           (State [Thread WAcquire true] [] 0 true [JoinNotify] O [] None)
           [Call JoinAll] shutdown_state 1 0); reflexivity.
Defined.

(** ** cancelPending on an empty queue *)

(** C8: a cancelPending that finds [_queue] empty returns 0 and changes
    nothing: its swap step and its return step leave every field of the
    dispatcher as it was, under any interleaving, and a call that runs
    without interruption ends in the state it started from, with the
    result 0 recorded. *)
Theorem cancelPending_empty s :
  fault s = None -> _queue s = [] ->
  (forall i p, callers s !! i = Some CanSwap ->
     step s (CallerStep i p) = Some (set_caller i (CanFinalize []) s))
  /\ (forall s' i p, fault s' = None -> callers s' !! i = Some (CanFinalize []) ->
        step s' (CallerStep i p) = Some (set_caller i (Returned (Some 0)) s'))
  /\ (forall p q,
        run s [Call CancelPending; CallerStep (length (callers s)) p;
               CallerStep (length (callers s)) q]
        = Some (with_callers (callers s ++ [Returned (Some 0)]) s)).
Proof.
  intros Hf Hq. split_and!.
  - intros i p Hc. unfold step. rewrite Hf, Hc. simpl. rewrite Hq.
    destruct s; simpl in *; by subst.
  - intros s' i p Hf' Hc. unfold step. rewrite Hf', Hc. done.
  - intros p q. destruct s as [ts qu n b cs sub ex fl]. simpl in *. subst.
    unfold step, call. simpl. rewrite list_lookup_middle by done. simpl.
    unfold set_caller, with_callers, with_queue. simpl.
    rewrite insert_last, list_lookup_middle by done. simpl.
    unfold set_caller, with_callers. simpl. by rewrite insert_last.
Qed.

Lemma cancelPending_empty_witness :
  run (fresh 1) [Call CancelPending; CallerStep 0 0; CallerStep 0 0]
  = Some (with_callers [Returned (Some 0)] (fresh 1)).
Proof.
  destruct (cancelPending_empty (fresh 1) eq_refl eq_refl) as (_ & _ & H).
  exact (H O O).
Defined.

(** ** waitAll *)

(** What one step of a waitAll call does. *)
Lemma waitAll_own_step s i p c s' :
  callers s !! i = Some c -> in_waitAll c ->
  step s (CallerStep i p) = Some s' ->
  c <> WaitBlocked
  /\ ((jobsLeft s <= 0 /\ c = WaitLock \/ jobsLeft s = 0)
      /\ s' = set_caller i (Returned None) s
      \/ jobsLeft s <> 0 /\ s' = set_caller i WaitBlocked s).
Proof.
  intros Hc Hin H. unfold step in H. destruct (fault s); [done|].
  rewrite Hc in H. destruct Hin as [-> | [-> | ->]]; simpl in H; [|done|].
  - split; [done|]. destruct (Z.ltb_spec 0 (jobsLeft s)).
    + destruct (Z.eqb_spec (jobsLeft s) 0); simplify_eq; [lia|]. by right.
    + simplify_eq. left. split; [|done]. left. done.
  - split; [done|]. destruct (Z.eqb_spec (jobsLeft s) 0); simplify_eq.
    + left. split; [|done]. by right.
    + by right.
Qed.

(** A step of a waitAll call changes nothing but the point of that call. *)
Lemma waitAll_step_frame s i p c s' :
  callers s !! i = Some c -> in_waitAll c ->
  step s (CallerStep i p) = Some s' ->
  same_shared s s'
  /\ length (callers s') = length (callers s)
  /\ (forall j, j <> i -> callers s' !! j = callers s !! j)
  /\ (callers s' !! i = Some (Returned None)
      \/ callers s' !! i = Some WaitBlocked).
Proof.
  intros Hc Hin H.
  pose proof (lookup_lt_Some _ _ _ Hc) as Hlt.
  destruct (waitAll_own_step _ _ _ _ _ Hc Hin H) as [_ [[_ ->]|[_ ->]]];
    (split; [apply same_shared_set_caller|]); simpl;
    rewrite length_insert; (split; [done|]);
    (split; [intros j Hj; by rewrite list_lookup_insert_ne|]);
    rewrite list_lookup_insert_eq by done; auto.
Qed.


Lemma spurious_caller_step s i s' :
  step s (SpuriousCaller i) = Some s' ->
  callers s !! i = Some WaitBlocked /\ s' = set_caller i WaitWoken s.
Proof. intros H. step_cases H. done. Qed.

Lemma wrap_range z : 0 <= wrap z < size_modulus.
Proof. unfold wrap. apply Z.mod_pos_bound. reflexivity. Qed.

Lemma jobsLeft_nonneg_step s ev s' :
  step s ev = Some s' -> 0 <= jobsLeft s -> 0 <= jobsLeft s'.
Proof.
  intros H Hj. step_cases H; try done;
    match goal with |- 0 <= wrap ?z => apply (wrap_range z) end.
Qed.

Lemma event_cases i ev :
  (exists p, ev = CallerStep i p) \/ ev = SpuriousCaller i
  \/ ((forall p, ev <> CallerStep i p) /\ ev <> SpuriousCaller i).
Proof.
  destruct ev as [op|j p|j o|j|j];
    try (right; right; split; [intros ?|]; congruence);
    (destruct (decide (j = i)) as [->|Hne];
     [eauto | right; right; split; [intros ?|]; congruence]).
Qed.

(** A waitAll call that has returned did so by a step of its own, taken in
    a state whose counter was zero. *)
Lemma waitAll_returns_at_zero i tr : forall s c s',
  callers s !! i = Some c -> in_waitAll c -> 0 <= jobsLeft s ->
  run s tr = Some s' -> callers s' !! i = Some (Returned None) ->
  exists tr1 p tr2 s1,
    tr = tr1 ++ CallerStep i p :: tr2 /\ run s tr1 = Some s1
    /\ jobsLeft s1 = 0
    /\ step s1 (CallerStep i p) = Some (set_caller i (Returned None) s1).
Proof.
  induction tr as [|ev tr IH]; intros s c s' Hc Hin Hj Hrun Hret; simpl in Hrun.
  - simplify_eq. destruct Hin as [? | [? | ?]]; done.
  - destruct (step s ev) as [s1|] eqn:E; [|done].
    pose proof (jobsLeft_nonneg_step _ _ _ E Hj) as Hj1.
    pose proof (lookup_lt_Some _ _ _ Hc) as Hlt.
    assert (forall c1, callers s1 !! i = Some c1 -> in_waitAll c1 ->
              exists tr1 p tr2 s2,
                ev :: tr = tr1 ++ CallerStep i p :: tr2 /\ run s tr1 = Some s2
                /\ jobsLeft s2 = 0
                /\ step s2 (CallerStep i p)
                   = Some (set_caller i (Returned None) s2)) as Hnext.
    { intros c1 Hc1 Hin1.
      destruct (IH s1 c1 s' Hc1 Hin1 Hj1 Hrun Hret) as (tr1 & p & tr2 & s2 & -> & Hr & Hz & Hs).
      exists (ev :: tr1), p, tr2, s2. simpl. rewrite E. done. }
    destruct (event_cases i ev) as [[p ->]|[->|[Hne1 Hne2]]].
    + destruct (waitAll_own_step _ _ _ _ _ Hc Hin E) as [_ [[Hz ->]|[_ ->]]].
      * exists [], p, tr, s. simpl. split_and!; [done|done|lia|done].
      * apply (Hnext WaitBlocked); [|unfold in_waitAll; auto].
        simpl. by rewrite list_lookup_insert_eq.
    + apply spurious_caller_step in E as [_ ->].
      apply (Hnext WaitWoken); [|unfold in_waitAll; auto].
      simpl. by rewrite list_lookup_insert_eq.
    + destruct (caller_other _ _ _ _ _ E Hc Hne1 Hne2) as [Hc1|[-> Hc1]].
      * by apply (Hnext c).
      * apply (Hnext WaitWoken); [done|unfold in_waitAll; auto].
Qed.



(** ** Tickets *)

Lemma occ_nonneg t s : 0 <= occ t s.
Proof.
  unfold occ.
  pose proof (total_nonneg (fun e => hit t (ticket e)) (_queue s)
                (fun e => hit_nonneg t (ticket e))).
  pose proof (total_nonneg (caller_occ t) (callers s) (caller_occ_nonneg t)).
  pose proof (total_nonneg (worker_occ t) (threads s) (worker_occ_nonneg t)).
  pose proof (total_nonneg (hit t) (executed s) (hit_nonneg t)).
  lia.
Qed.

(** A transition moves tickets around or drops them; only a new [enqueue]
    call brings one in, and that one is the next number.  The call of a
    job that ends the process logs the ticket the worker still holds. *)
Lemma occ_step t s ev s' :
  step s ev = Some s' ->
  (submitted s' = submitted s /\ occ t s' <= occ t s)
  \/ (submitted s' = S (submitted s)
      /\ occ t s' = occ t s + hit t (submitted s))
  \/ (submitted s' = submitted s /\ occ t s' <= 2 * occ t s
      /\ fault s' <> None).
Proof.
  intros H. unfold occ.
  pose proof (total_nonneg (fun e => hit t (ticket e)) (_queue s)
                (fun e => hit_nonneg t (ticket e))) as Hq.
  pose proof (total_nonneg (caller_occ t) (callers s) (caller_occ_nonneg t)) as Hc.
  pose proof (total_nonneg (hit t) (executed s) (hit_nonneg t)) as He.
  step_cases H;
    try match goal with
    | H : threads s !! _ = Some _ |- _ =>
        pose proof (total_lookup_le (worker_occ t) _ _ _ (worker_occ_nonneg t) H)
    end;
    simpl in *; totals;
    unfold worker_occ, wake in *; simpl in *;
    try (right; left; split; [done|lia]);
    try (left; split; [done|]; lia);
    try (right; right; split_and!; [done|lia|done]).
Qed.

Lemma occ_fresh n t : occ t (fresh n) = 0.
Proof.
  unfold occ, fresh. simpl. rewrite total_replicate. unfold worker_occ. simpl. lia.
Qed.

Lemma tickets_ok_step s ev s' :
  tickets_ok s -> step s ev = Some s' -> tickets_ok s'.
Proof.
  intros Hs H Hf' t. specialize (Hs (step_fault _ _ _ H) t) as [H1 H2].
  pose proof (occ_nonneg t s'). pose proof (hit_nonneg t (submitted s)).
  destruct (occ_step t _ _ _ H) as [[E Hle]|[[E Heq]|[_ [_ ?]]]]; [| |done].
  - rewrite E. split; [lia|]. intros Ht. specialize (H2 Ht). lia.
  - rewrite E. destruct (decide (submitted s = t)) as [<-|Hne].
    + rewrite hit_same in Heq. rewrite H2 in Heq by lia. split; [lia|]. lia.
    + rewrite hit_other in Heq by done. split; [lia|].
      intros Ht. rewrite Heq, H2 by lia. done.
Qed.

Lemma tickets_ok_run s tr s' :
  tickets_ok s -> run s tr = Some s' -> tickets_ok s'.
Proof.
  revert s; induction tr as [|ev tr IH]; intros s Hs H; simpl in H.
  - by simplify_eq.
  - destruct (step s ev) as [s1|] eqn:E; [|done].
    eauto using tickets_ok_step.
Qed.

Lemma tickets_ok_reachable threadCount s0 tr s :
  ConcurrentQueue threadCount = Normal s0 -> run s0 tr = Some s -> tickets_ok s.
Proof.
  intros H0 Hrun. apply (tickets_ok_run s0 tr); [|done].
  apply ConcurrentQueue_Normal in H0 as [_ ->]. intros _ t.
  rewrite (occ_fresh (Z.to_nat threadCount) t). split; [lia|done].
Qed.

(** A ticket that is nowhere and below the next number stays nowhere. *)
Lemma occ_zero_step t s ev s' :
  step s ev = Some s' -> occ t s = 0 -> (t < submitted s)%nat ->
  occ t s' = 0 /\ (t < submitted s')%nat.
Proof.
  intros H Hz Hlt. pose proof (occ_nonneg t s').
  destruct (occ_step t _ _ _ H) as [[E Hle]|[[E Heq]|[E [Hle _]]]].
  - split; lia.
  - rewrite hit_other in Heq by lia. split; lia.
  - split; lia.
Qed.

Lemma occ_zero_run t s tr s' :
  run s tr = Some s' -> occ t s = 0 -> (t < submitted s)%nat ->
  occ t s' = 0.
Proof.
  revert s; induction tr as [|ev tr IH]; intros s H Hz Hlt; simpl in H.
  - by simplify_eq.
  - destruct (step s ev) as [s1|] eqn:E; [|done].
    destruct (occ_zero_step _ _ _ _ E Hz Hlt). eauto.
Qed.

Lemma occ_zero_not_executed t s : occ t s = 0 -> t ∉ executed s.
Proof.
  intros Hz Hin. unfold occ in Hz.
  pose proof (total_nonneg (fun e => hit t (ticket e)) (_queue s)
                (fun e => hit_nonneg t (ticket e))).
  pose proof (total_nonneg (caller_occ t) (callers s) (caller_occ_nonneg t)).
  pose proof (total_nonneg (worker_occ t) (threads s) (worker_occ_nonneg t)).
  pose proof (total_elem (hit t) _ _ (hit_nonneg t) Hin) as He.
  rewrite hit_same in He. lia.
Qed.

(** The swap of cancelPending takes the tickets of the queue out of the
    dispatcher. *)
Lemma swap_removes s i p s1 e :
  tickets_ok s -> callers s !! i = Some CanSwap ->
  step s (CallerStep i p) = Some s1 -> e ∈ _queue s ->
  s1 = set_caller i (CanFinalize (_queue s)) (with_queue [] s)
  /\ occ (ticket e) s1 = 0 /\ (ticket e < submitted s1)%nat.
Proof.
  intros Hs Hc H He. pose proof (step_fault _ _ _ H) as Hf.
  unfold step in H. rewrite Hf, Hc in H. simpl in H. simplify_eq.
  split; [done|]. destruct (Hs Hf (ticket e)) as [H1 H2].
  pose proof (total_elem (fun e0 => hit (ticket e) (ticket e0)) _ _
                (fun e0 => hit_nonneg (ticket e) (ticket e0)) He) as Hq.
  simpl in Hq. rewrite hit_same in Hq.
  pose proof (total_nonneg (caller_occ (ticket e)) (callers s) (caller_occ_nonneg _)).
  pose proof (total_nonneg (worker_occ (ticket e)) (threads s) (worker_occ_nonneg _)).
  pose proof (total_nonneg (hit (ticket e)) (executed s) (hit_nonneg _)).
  assert (ticket e < submitted s)%nat as Hlt.
  { destruct (decide (ticket e < submitted s)%nat); [done|].
    assert (occ (ticket e) s = 0) as Hz by (apply H2; lia).
    unfold occ in Hz. lia. }
  unfold occ in *. simpl. rewrite (total_insert _ _ _ _ _ Hc). simpl.
  split; [lia|done].
Qed.

(** ** cancelPending *)

Lemma cancel_finalize_step s i q oldQueue s' :
  accounted s -> Z.of_nat (submitted s) < size_modulus ->
  callers s !! i = Some (CanFinalize oldQueue) ->
  step s (CallerStep i q) = Some s' ->
  let size := Z.of_nat (length oldQueue) in
  jobsLeft s' = jobsLeft s - size /\ _queue s' = _queue s
  /\ executed s' = executed s /\ fault s' = None
  /\ callers s' !! i
     = Some (if size =? 0 then Returned (Some 0) else CanNotify size (jobsLeft s')).
Proof.
  intros Hacc Hsub Hc H size. pose proof (step_fault _ _ _ H) as Hf.
  pose proof (lookup_lt_Some _ _ _ Hc) as Hlt.
  pose proof (accounted_jobsLeft_lt _ Hacc Hsub) as Hb.
  destruct Hacc as (Hj & _ & _). unfold owed in Hj.
  pose proof (total_nonneg worker_owed (threads s) worker_owed_nonneg).
  pose proof (total_lookup_le caller_owed _ _ _ caller_owed_nonneg Hc) as Hw.
  simpl in Hw. fold size in Hw.
  unfold step in H. rewrite Hf, Hc in H. simpl in H. fold size in H.
  destruct (Z.eqb_spec size 0) as [E|E]; simpl in H.
  - simplify_eq. simpl. rewrite list_lookup_insert_eq by done.
    rewrite E. split_and!; (done || lia).
  - rewrite finalizeJobs_locked_ok in H by lia. simplify_eq. simpl.
    rewrite list_lookup_insert_eq by done. done.
Qed.

Lemma cancel_notify_step s i q size r s' :
  callers s !! i = Some (CanNotify size r) ->
  step s (CallerStep i q) = Some s' ->
  jobsLeft s' = jobsLeft s /\ _queue s' = _queue s
  /\ executed s' = executed s /\ fault s' = None
  /\ callers s' !! i = Some (Returned (Some size)).
Proof.
  intros Hc H. pose proof (step_fault _ _ _ H) as Hf.
  pose proof (lookup_lt_Some _ _ _ Hc) as Hlt.
  unfold step in H. rewrite Hf, Hc in H. simpl in H. simplify_eq.
  unfold finalizeJobs_signal. destruct (r =? 0); simpl;
    rewrite list_lookup_insert_eq by (by rewrite ?length_fmap); done.
Qed.

Lemma cancel_point_step oldQueue s ev s' i c :
  step s ev = Some s' -> callers s !! i = Some c -> cancel_point oldQueue c ->
  exists c', callers s' !! i = Some c' /\ cancel_point oldQueue c'.
Proof.
  intros H Hc Hp. pose proof (lookup_lt_Some _ _ _ Hc) as Hlt.
  destruct (event_cases i ev) as [[p ->]|[->|[Hne1 Hne2]]].
  - destruct Hp as [-> | [[r ->] | ->]].
    + unfold step in H. destruct (fault s); [done|]. rewrite Hc in H. simpl in H.
      unfold finalizeJobs_locked in H.
      repeat case_match; simplify_eq/=;
        rewrite ?list_lookup_insert_eq by done; eexists; split; try done;
        unfold cancel_point; eauto.
    + destruct (cancel_notify_step _ _ _ _ _ _ Hc H) as (_ & _ & _ & _ & Hc').
      eexists; split; [done|]. unfold cancel_point; auto.
    + unfold step in H. destruct (fault s); [done|]. by rewrite Hc in H.
  - apply spurious_caller_step in H as [Hb _]. rewrite Hc in Hb.
    destruct Hp as [? | [[r ?] | ?]]; simplify_eq.
  - destruct (caller_other _ _ _ _ _ H Hc Hne1 Hne2) as [Hc'|[-> _]]; [eauto|].
    destruct Hp as [? | [[r ?] | ?]]; simplify_eq.
Qed.

Lemma cancel_point_run oldQueue i tr : forall s s' c,
  run s tr = Some s' -> callers s !! i = Some c -> cancel_point oldQueue c ->
  exists c', callers s' !! i = Some c' /\ cancel_point oldQueue c'.
Proof.
  induction tr as [|ev tr IH]; intros s s' c H Hc Hp; simpl in H.
  - simplify_eq. eauto.
  - destruct (step s ev) as [s1|] eqn:E; [|done].
    destruct (cancel_point_step _ _ _ _ _ _ E Hc Hp) as (c1 & Hc1 & Hp1). eauto.
Qed.

(** C1: the first step of a cancelPending call, one region under
    queueMutex, leaves [_queue] empty and hands the whole former queue to
    the call.  Whatever the other threads do afterwards, no job of that
    former queue is ever called by a worker; the call is at one of its
    later points and the only value it returns is the length of the former
    queue; its step from [CanFinalize] subtracts exactly that length from
    [jobsLeft] (no assert fails, nothing wraps) and no other step of the
    call touches the counter or the queue; the call can always go on. *)
Theorem cancelPending_spec threadCount s0 tr0 s i p s1 tr s2 :
  ConcurrentQueue threadCount = Normal s0 ->
  run s0 tr0 = Some s ->
  callers s !! i = Some CanSwap ->
  step s (CallerStep i p) = Some s1 ->
  run s1 tr = Some s2 ->
  enqueue_calls (tr0 ++ tr) < size_modulus ->
  let size := Z.of_nat (length (_queue s)) in
  s1 = set_caller i (CanFinalize (_queue s)) (with_queue [] s)
  /\ (forall e, e ∈ _queue s -> ticket e ∉ executed s2)
  /\ (exists c, callers s2 !! i = Some c /\ cancel_point (_queue s) c)
  /\ (forall q s3, callers s2 !! i = Some (CanFinalize (_queue s)) ->
        step s2 (CallerStep i q) = Some s3 ->
        jobsLeft s3 = jobsLeft s2 - size /\ _queue s3 = _queue s2
        /\ executed s3 = executed s2 /\ fault s3 = None
        /\ callers s3 !! i
           = Some (if size =? 0 then Returned (Some 0)
                   else CanNotify size (jobsLeft s3)))
  /\ (forall q r s3, callers s2 !! i = Some (CanNotify size r) ->
        step s2 (CallerStep i q) = Some s3 ->
        jobsLeft s3 = jobsLeft s2 /\ _queue s3 = _queue s2
        /\ executed s3 = executed s2 /\ fault s3 = None
        /\ callers s3 !! i = Some (Returned (Some size)))
  /\ (fault s2 = None ->
        callers s2 !! i = Some (Returned (Some size))
        \/ forall q, is_Some (step s2 (CallerStep i q))).
Proof.
  intros H0 Hrun0 Hc H Hrun Hlt size.
  pose proof (tickets_ok_reachable _ _ _ _ H0 Hrun0) as Htk.
  pose proof (lookup_lt_Some _ _ _ Hc) as Hlen.
  assert (s1 = set_caller i (CanFinalize (_queue s)) (with_queue [] s)) as Hs1.
  { pose proof (step_fault _ _ _ H) as Hf. unfold step in H.
    rewrite Hf, Hc in H. simpl in H. congruence. }
  assert (run s0 (tr0 ++ CallerStep i p :: tr) = Some s2) as Hall.
  { rewrite run_app, Hrun0. simpl. by rewrite H. }
  assert (enqueue_calls (tr0 ++ CallerStep i p :: tr) < size_modulus) as Hlt'.
  { rewrite enqueue_calls_app in *. simpl. done. }
  pose proof (accounted_reachable _ _ _ _ H0 Hall Hlt') as Hacc.
  assert (Z.of_nat (submitted s2) < size_modulus) as Hsub.
  { rewrite (submitted_run _ _ _ Hall).
    apply ConcurrentQueue_Normal in H0 as [_ ->]. simpl. lia. }
  assert (exists c, callers s2 !! i = Some c /\ cancel_point (_queue s) c) as Hpt.
  { apply (cancel_point_run (_queue s) i tr s1 s2 (CanFinalize (_queue s)) Hrun).
    - rewrite Hs1. simpl. by rewrite list_lookup_insert_eq.
    - by left. }
  split_and!; [done| |done| | |].
  - intros e He.
    destruct (swap_removes _ _ _ _ _ Htk Hc H He) as (_ & Hz & Hb).
    apply occ_zero_not_executed. by apply (occ_zero_run _ s1 tr).
  - intros q s3 Hc2 Hst. by apply (cancel_finalize_step s2 i q).
  - intros q r s3 Hc2 Hst. by apply (cancel_notify_step s2 i q size r).
  - intros Hf. destruct Hpt as (c & Hc2 & [-> | [[r ->] | ->]]); [right|right|by left].
    + intros q. unfold step. rewrite Hf, Hc2. simpl.
      destruct (negb _); [|done]. destruct (finalizeJobs_locked _ _) as [? []]; done.
    + intros q. unfold step. rewrite Hf, Hc2. done.
Qed.

Lemma cancelPending_spec_witness :
  busy_state = set_caller 2 (CanFinalize (_queue queued_state))
                 (with_queue [] queued_state)
  /\ Forall (fun e => ticket e ∉ executed cancelled_state) (_queue queued_state).
Proof.
  pose proof (cancelPending_spec 2 (fresh 2) queued_trace queued_state
                2 0 busy_state [CallerStep 2 0] cancelled_state
                eq_refl eq_refl eq_refl eq_refl eq_refl eq_refl)
    as (H1 & H2 & _).
  split; [exact H1|]. apply Forall_forall. exact H2.
Defined.

(** ** Construction *)

(** C4, as claimed, fails: a worker count of zero is not signalled; the
    constructor returns a dispatcher without threads. *)
Lemma zero_workers_not_rejected :
  ConcurrentQueue 0 = Normal (fresh 0)
  /\ ~ (exists e, ConcurrentQueue 0 = Raised e).
Proof. split; [reflexivity|]. intros [e H]. discriminate. Qed.

Lemma no_threads_step s ev s' :
  step s ev = Some s' -> threads s = [] ->
  threads s' = [] /\ executed s' = executed s.
Proof.
  intros H Ht. step_cases H; rewrite ?Ht in *; simplify_eq/=; done.
Qed.

Lemma no_threads_run s tr s' :
  run s tr = Some s' -> threads s = [] ->
  threads s' = [] /\ executed s' = executed s.
Proof.
  revert s; induction tr as [|ev tr IH]; intros s H Ht; simpl in H.
  - by simplify_eq.
  - destruct (step s ev) as [s1|] eqn:E; [|done].
    destruct (no_threads_step _ _ _ E Ht) as [Ht1 <-]. eauto.
Qed.

Lemma wrap_negative k : - 2 ^ 63 <= k < 0 -> wrap k = k + 2 ^ 64.
Proof.
  intros Hk. unfold wrap, size_modulus. symmetry.
  apply (Z.mod_unique_pos _ _ (-1)); lia.
Qed.

(** C4, amended: a worker count of zero is accepted without any signal:
    the constructor reserves nothing, spawns nothing and returns normally a
    dispatcher with no worker thread, an empty queue, [jobsLeft = 0] and
    [bailout = false], and such a dispatcher never calls a job, whatever is
    submitted to it.  A negative argument cannot arrive as such: converted
    to [size_t] it is a count above the capacity of the thread vector, which
    [reserve] signals with [length_error]. *)
Theorem ConcurrentQueue_accepts :
  ConcurrentQueue 0 = Normal (fresh 0)
  /\ (forall tr s, run (fresh 0) tr = Some s ->
        threads s = [] /\ executed s = [])
  /\ (forall threadCount, threads_max_size < threadCount ->
        ConcurrentQueue threadCount = Raised length_error)
  /\ (forall k, - 2 ^ 63 <= k < 0 ->
        ConcurrentQueue (wrap k) = Raised length_error).
Proof.
  split_and!.
  - reflexivity.
  - intros tr s Hrun. by apply (no_threads_run (fresh 0) tr s).
  - intros threadCount Hlt. unfold ConcurrentQueue.
    by destruct (Z.ltb_spec threads_max_size threadCount); [|lia].
  - intros k Hk. unfold ConcurrentQueue. rewrite (wrap_negative k Hk).
    destruct (Z.ltb_spec threads_max_size (k + 2 ^ 64)) as [|Hle]; [done|].
    exfalso. revert Hle. unfold threads_max_size.
    change ((2 ^ 63 - 1) / 8) with 1152921504606846975. lia.
Qed.

Lemma ConcurrentQueue_accepts_witness :
  threads unserved_state = [] /\ executed unserved_state = [].
Proof.
  apply (proj1 (proj2 ConcurrentQueue_accepts)
           [Call (Enqueue (Target 7)); CallerStep 0 0; CallerStep 0 0;
            CallerStep 0 0] unserved_state).
  reflexivity.
Defined.

(** ** enqueue *)

(** C3, as claimed, fails: an empty job is taken like any other; the call
    returns normally, the counter is 1 and the queue holds the job. *)
Lemma enqueue_empty_mutates :
  run (fresh 1) [Call (Enqueue Empty); CallerStep 0 0; CallerStep 0 0;
                 CallerStep 0 0]
  = Some (State [Thread WAcquire true] [Entry 0 Empty] 1 false
                [Returned None] 1 [] None)
  /\ jobsLeft (fresh 1) = 0 /\ _queue (fresh 1) = [].
Proof. repeat split. Qed.

Lemma existsb_waiting_pick (ts : list thread) :
  existsb is_waiting ts = true ->
  exists pick t, ts !! pick = Some t /\ is_waiting t = true.
Proof.
  induction ts as [|t ts IH]; simpl; [done|].
  destruct (is_waiting t) eqn:E; simpl.
  - intros _. by exists O, t.
  - intros H. destruct (IH H) as (k & t' & Hk & Ht'). by exists (S k), t'.
Qed.

(** C3, amended: enqueue does not look at its argument.  For every job,
    empty or not, an uninterrupted call increments [jobsLeft] (modulo
    [2^64]), appends the job to [_queue], and after its notify_one returns
    normally, leaving counter and queue as it set them. *)
Theorem enqueue_accepts_any_job f s p q :
  fault s = None ->
  let n := length (callers s) in
  let s2 := State (threads s) (_queue s ++ [Entry (submitted s) f])
                  (wrap (jobsLeft s + 1)) (bailout s) (callers s ++ [EnqNotify])
                  (S (submitted s)) (executed s) None in
  run s [Call (Enqueue f); CallerStep n p; CallerStep n q] = Some s2
  /\ exists pick s3,
       step s2 (CallerStep n pick) = Some s3
       /\ callers s3 = callers s ++ [Returned None]
       /\ jobsLeft s3 = jobsLeft s2 /\ _queue s3 = _queue s2
       /\ fault s3 = None.
Proof.
  intros Hf n s2. split.
  - destruct s as [ts qu j b cs sub ex fl]. simpl in *. subst n s2. subst.
    unfold step, call. simpl. rewrite list_lookup_middle by done. simpl.
    unfold set_caller, with_callers, with_jobsLeft. simpl.
    rewrite insert_last, list_lookup_middle by done. simpl.
    unfold set_caller, with_callers, with_queue. simpl. by rewrite insert_last.
  - unfold step. simpl. subst n. rewrite list_lookup_middle by done. simpl.
    unfold notify_one_jobAvailableVar. simpl.
    destruct (existsb is_waiting (threads s)) eqn:E.
    + destruct (existsb_waiting_pick _ E) as (pick & t & Hp & Ht).
      exists pick. rewrite Hp, Ht. simpl. eexists. split; [done|]. simpl.
      by rewrite insert_last.
    + exists O. simpl. eexists. split; [done|]. simpl. by rewrite insert_last.
Qed.

Lemma enqueue_accepts_any_job_witness :
  run (fresh 1) [Call (Enqueue Empty); CallerStep 0 0; CallerStep 0 0]
  = Some (State [Thread WAcquire true] [Entry 0 Empty] 1 false
                [EnqNotify] 1 [] None).
Proof.
  exact (proj1 (enqueue_accepts_any_job Empty (fresh 1) 0 0 eq_refl)).
Defined.

(** ** The worker after its job *)

(** C6, as claimed, fails for a job that fails: the exception leaves
    [nextJob], the counter keeps its value and nothing can run any more. *)
Lemma failed_job_not_finalized :
  run (fresh 1) [Call (Enqueue (Target 7)); CallerStep 0 0; CallerStep 0 0;
                 CallerStep 0 0; WorkerStep 0 Returns; WorkerStep 0 Throws]
  = Some dead_state
  /\ jobsLeft dead_state = 1
  /\ forall ev, step dead_state ev = None.
Proof. repeat split. Qed.

Lemma notify_all_waitVar_wakes s j :
  callers s !! j = Some WaitBlocked ->
  callers (notify_all_waitVar s) !! j = Some WaitWoken.
Proof. intros H. simpl. by rewrite list_lookup_fmap, H. Qed.

(** C6, amended: in every reachable state, a worker whose job has returned
    goes on to [finalizeJobs(1)]; there it subtracts exactly one from
    [jobsLeft], which is at least one, in one locked step; its next step
    wakes every waiter asleep in waitAll when the count it read is zero,
    and wakes nobody otherwise.  A job that throws, or an empty job, ends
    the process at the call: the counter is not decremented and no
    thread takes another step. *)
Theorem worker_finalizes_returned_job threadCount s0 tr s i t :
  ConcurrentQueue threadCount = Normal s0 ->
  run s0 tr = Some s ->
  enqueue_calls tr < size_modulus ->
  fault s = None ->
  threads s !! i = Some t ->
  (forall e f, pc t = WRun e -> job e = Target f ->
     step s (WorkerStep i Returns)
     = Some (set_pc i t WFinalize (with_executed (ticket e :: executed s) s)))
  /\ (pc t = WFinalize ->
        1 <= jobsLeft s
        /\ forall o, step s (WorkerStep i o)
                     = Some (set_pc i t (WNotify (jobsLeft s - 1))
                               (with_jobsLeft (jobsLeft s - 1) s)))
  /\ (forall r o, pc t = WNotify r ->
        step s (WorkerStep i o)
        = Some (set_pc i t WAcquire (if r =? 0 then notify_all_waitVar s else s)))
  /\ (forall j, callers s !! j = Some WaitBlocked ->
        callers (notify_all_waitVar s) !! j = Some WaitWoken)
  /\ (forall e o, pc t = WRun e -> job e = Empty \/ o = Throws ->
        exists s', step s (WorkerStep i o) = Some s'
                   /\ fault s' <> None /\ jobsLeft s' = jobsLeft s
                   /\ threads s' = threads s
                   /\ forall ev, step s' ev = None).
Proof.
  intros H0 Hrun Hlt Hf Ht.
  destruct (finalizeJobs_asserts_reachable _ _ _ _ H0 Hrun Hlt) as (_ & Hw & _).
  split_and!.
  - intros e f Hpc Hj. unfold step, nextJob. by rewrite Hf, Ht, Hpc, Hj.
  - intros Hpc. destruct (Hw i t Ht Hpc) as [Hge Hfin]. split; [done|].
    intros o. unfold step, nextJob. by rewrite Hf, Ht, Hpc, Hfin.
  - intros r o Hpc. unfold step, nextJob. by rewrite Hf, Ht, Hpc.
  - intros j. apply notify_all_waitVar_wakes.
  - intros e o Hpc Hcase. unfold step at 1. unfold nextJob. rewrite Hf, Ht, Hpc.
    destruct (job e) eqn:Hj.
    + eexists. split; [done|]. simpl. split_and!; done.
    + destruct Hcase as [?| ->]; [done|].
      eexists. split; [done|]. simpl. split_and!; done.
Qed.

Lemma worker_finalizes_returned_job_witness :
  1 <= jobsLeft busy_state
  /\ forall o, step busy_state (WorkerStep 0 o)
               = Some (set_pc 0 (Thread WFinalize true)
                         (WNotify (jobsLeft busy_state - 1))
                         (with_jobsLeft (jobsLeft busy_state - 1) busy_state)).
Proof.
  refine (proj1 (proj2 (worker_finalizes_returned_job 2 (fresh 2) busy_trace
                          busy_state 0 (Thread WFinalize true) _ _ _ _ _)) _);
    [reflexivity | reflexivity | vm_compute; reflexivity | reflexivity
    | reflexivity | reflexivity].
Defined.

(** ** waitAll only observes *)

Lemma set_caller_twice i c c' s :
  set_caller i c (set_caller i c' s) = set_caller i c s.
Proof. unfold set_caller, with_callers. simpl. by rewrite list_insert_insert_eq. Qed.

Lemma wake_waiting_or_returned c :
  waiting_or_returned c -> waiting_or_returned (wake_caller c).
Proof.
  unfold waiting_or_returned, in_waitAll.
  intros [[-> | [-> | ->]] | ->]; simpl; auto.
Qed.


Ltac unfold_state :=
  unfold set_caller, set_pc, with_callers, with_threads, with_queue,
    with_jobsLeft, with_bailout, with_executed, abort,
    notify_all_waitVar, notify_all_jobAvailableVar; simpl.

Ltac state_eq :=
  unfold_state; rewrite ?list_fmap_insert;
  try match goal with
  | |- context [<[?j := ?x]> (<[?i := ?c]> ?l)] =>
      rewrite (list_insert_insert_ne l j i x c) by done
  end;
  reflexivity.

Lemma enqueue_set_caller i j p cj c s :
  i <> j ->
  enqueue j p cj (set_caller i c s) = set_caller i c <$> enqueue j p cj s.
Proof.
  intros Hne. destruct cj; simpl; try done; try (f_equal; state_eq).
  unfold notify_one_jobAvailableVar. simpl.
  destruct (existsb is_waiting (threads s)); [|simpl; f_equal; state_eq].
  destruct (threads s !! p) as [t|]; [|done].
  destruct (is_waiting t); [|done]. simpl; f_equal; state_eq.
Qed.

Lemma finalizeJobs_locked_set_caller count i c s :
  finalizeJobs_locked count (set_caller i c s)
  = (set_caller i c (finalizeJobs_locked count s).1,
     (finalizeJobs_locked count s).2).
Proof.
  unfold finalizeJobs_locked. simpl.
  destruct (negb (0 <? count)); [done|].
  destruct (negb (count <=? jobsLeft s)); done.
Qed.

Lemma finalizeJobs_signal_set_caller r i c s :
  finalizeJobs_signal r (set_caller i c s)
  = set_caller i (if r =? 0 then wake_caller c else c) (finalizeJobs_signal r s).
Proof.
  unfold finalizeJobs_signal. destruct (r =? 0); [|done]. state_eq.
Qed.

Lemma cancelPending_set_caller i j cj c s :
  i <> j ->
  cancelPending j cj (set_caller i c s) = set_caller i c <$> cancelPending j cj s
  \/ cancelPending j cj (set_caller i c s)
     = set_caller i (wake_caller c) <$> cancelPending j cj s.
Proof.
  intros Hne. destruct cj; simpl; try (by left).
  - left. f_equal. state_eq.
  - left. destruct (negb _); [|simpl; f_equal; state_eq].
    rewrite finalizeJobs_locked_set_caller.
    destruct (finalizeJobs_locked _ s) as [s' [r|]]; simpl; f_equal; state_eq.
  - rewrite finalizeJobs_signal_set_caller.
    destruct (remainingJobs =? 0); [right|left]; f_equal; state_eq.
Qed.

Lemma waitAll_set_caller i j cj c s :
  i <> j ->
  waitAll j cj (set_caller i c s) = set_caller i c <$> waitAll j cj s.
Proof.
  intros Hne. destruct cj; simpl; try done.
  - destruct (0 <? jobsLeft s); [destruct (jobsLeft s =? 0)|];
      simpl; f_equal; state_eq.
  - destruct (jobsLeft s =? 0); simpl; f_equal; state_eq.
Qed.

Lemma joinAll_set_caller i j cj c s :
  i <> j ->
  joinAll j cj (set_caller i c s) = set_caller i c <$> joinAll j cj s.
Proof.
  intros Hne. destruct cj; simpl; try done.
  - destruct (bailout s); simpl; f_equal; state_eq.
  - f_equal. state_eq.
  - destruct (threads s !! k) as [x|]; [|simpl; f_equal; state_eq].
    destruct (joinable x); [|simpl; f_equal; state_eq].
    destruct (pc x); try done. simpl; f_equal; state_eq.
Qed.

Lemma nextJob_set_caller i j o t c s :
  nextJob j o t (set_caller i c s) = set_caller i c <$> nextJob j o t s
  \/ nextJob j o t (set_caller i c s)
     = set_caller i (wake_caller c) <$> nextJob j o t s.
Proof.
  unfold nextJob, take_front, job_available. destruct (pc t); simpl; try (by left).
  - left. destruct (bailout s); [simpl; f_equal; state_eq|].
    destruct (_queue s); simpl; f_equal; state_eq.
  - left. destruct (bailout s), (_queue s); simpl; f_equal; state_eq.
  - left. destruct (job e); [|destruct o]; simpl; f_equal; state_eq.
  - left. rewrite finalizeJobs_locked_set_caller.
    destruct (finalizeJobs_locked 1 s) as [s' [r|]]; simpl; f_equal; state_eq.
  - rewrite finalizeJobs_signal_set_caller.
    destruct (remainingJobs =? 0); [right|left]; f_equal; state_eq.
Qed.

(** A step of another thread does not see at which point of its waitAll
    call [i] stands. *)
Lemma step_set_caller s i c ev :
  (i < length (callers s))%nat ->
  own_event i ev = false ->
  step (set_caller i c s) ev = set_caller i c <$> step s ev
  \/ step (set_caller i c s) ev = set_caller i (wake_caller c) <$> step s ev.
Proof.
  intros Hlt Hown. unfold step. simpl. destruct (fault s); [by left|].
  destruct ev as [op|j p|j o|j|j]; simpl in Hown.
  - left. simpl. f_equal.
    destruct op; unfold call, set_caller, with_callers, with_submitted; simpl.
    all: rewrite insert_app_l by done; reflexivity.
  - apply Nat.eqb_neq in Hown. rewrite list_lookup_insert_ne by done.
    destruct (callers s !! j) as [cj|]; [|by left].
    destruct cj; unfold caller_step;
      first [ left; by apply enqueue_set_caller
            | apply cancelPending_set_caller; done
            | left; by apply waitAll_set_caller
            | left; by apply joinAll_set_caller
            | by left ].
  - destruct (threads s !! j) as [t|]; [|by left]. apply nextJob_set_caller.
  - left. destruct (threads s !! j) as [t|]; [|done].
    destruct (is_waiting t); done.
  - apply Nat.eqb_neq in Hown. rewrite list_lookup_insert_ne by done. left.
    destruct (callers s !! j) as [[]|]; try done. simpl. f_equal. state_eq.
Qed.

Lemma own_event_false i ev :
  own_event i ev = false ->
  (forall p, ev <> CallerStep i p) /\ ev <> SpuriousCaller i.
Proof.
  destruct ev as [op|j p|j o|j|j]; simpl; intros H; split; try congruence;
    apply Nat.eqb_neq in H; congruence.
Qed.

Lemma own_event_true s i c ev s1 :
  own_event i ev = true -> callers s !! i = Some c -> waiting_or_returned c ->
  step s ev = Some s1 ->
  exists c1, waiting_or_returned c1 /\ s1 = set_caller i c1 s.
Proof.
  intros Hown Hc Hw H.
  destruct ev as [op|j p|j o|j|j]; simpl in Hown; try done;
    apply Nat.eqb_eq in Hown as ->.
  - destruct Hw as [Hin | ->].
    + destruct (waitAll_own_step _ _ _ _ _ Hc Hin H) as [_ [[_ ->]|[_ ->]]];
        eexists; (split; [|done]); unfold waiting_or_returned, in_waitAll; auto.
    + unfold step in H. destruct (fault s); [done|]. by rewrite Hc in H.
  - apply spurious_caller_step in H as [_ ->].
    eexists; (split; [|done]); unfold waiting_or_returned, in_waitAll; auto.
Qed.

(** Whatever a run does while a waitAll call [i] moves through its points,
    the run without the steps of that call does to the rest of the state. *)
Lemma run_without_waiter i tr : forall s c s1,
  callers s !! i = Some WaitLock -> waiting_or_returned c ->
  run (set_caller i c s) tr = Some s1 ->
  exists c1 s1', waiting_or_returned c1 /\ run s (others i tr) = Some s1'
                 /\ s1 = set_caller i c1 s1'
                 /\ callers s1' !! i = Some WaitLock.
Proof.
  induction tr as [|ev tr IH]; intros s c s1 Hi Hc H; simpl in H.
  - simplify_eq. by exists c, s.
  - pose proof (lookup_lt_Some _ _ _ Hi) as Hlt.
    destruct (step (set_caller i c s) ev) as [s2|] eqn:E; [|done].
    unfold others. rewrite filter_cons.
    destruct (own_event i ev) eqn:Hown.
    + rewrite decide_False by done.
      destruct (own_event_true (set_caller i c s) i c ev s2 Hown) as (c2 & Hc2 & ->);
        [simpl; by rewrite list_lookup_insert_eq|done|done|].
      rewrite set_caller_twice in H. by apply (IH s c2).
    + rewrite decide_True by done.
      destruct (own_event_false _ _ Hown) as [Hne1 Hne2].
      assert (exists c' s2', waiting_or_returned c' /\ step s ev = Some s2'
                             /\ s2 = set_caller i c' s2') as (c' & s2' & Hc' & E' & ->).
      { destruct (step_set_caller s i c ev Hlt Hown) as [Hs|Hs];
          rewrite Hs in E; destruct (step s ev) as [s2'|]; simplify_eq/=.
        - by exists c, s2'.
        - exists (wake_caller c), s2'. split; [by apply wake_waiting_or_returned|done]. }
      destruct (caller_other _ _ _ _ _ E' Hi Hne1 Hne2) as [Hi'|[? _]]; [|done].
      simpl. rewrite E'. by apply (IH s2' c').
Qed.

Lemma run_without_waitAll s i tr s1 :
  callers s !! i = Some WaitLock -> run s tr = Some s1 ->
  exists s1', run s (others i tr) = Some s1' /\ same_shared s1' s1
              /\ length (callers s1') = length (callers s1)
              /\ (forall j, j <> i -> callers s1' !! j = callers s1 !! j).
Proof.
  intros Hi H.
  assert (set_caller i WaitLock s = s) as Hid.
  { destruct s. unfold set_caller, with_callers. simpl in *.
    by rewrite list_insert_id. }
  rewrite <- Hid in H.
  destruct (run_without_waiter i tr s WaitLock s1 Hi) as (c1 & s1' & _ & Hr & -> & _);
    [unfold waiting_or_returned, in_waitAll; auto|done|].
  exists s1'. split; [done|]. split; [apply same_shared_set_caller|]. simpl.
  rewrite length_insert. split; [done|].
  intros j Hj. by rewrite list_lookup_insert_ne.
Qed.

(** C10: waitAll only observes.  A step of a waitAll call, from any of its
    program points and in any state, leaves the pending queue, the counter,
    the shutdown flag and the worker threads (and the history variables) as
    they were and moves no other call.  Hence for any run after a waitAll
    call was entered, the run made of the other threads' events alone is a
    run too, and ends with the same queue, counter, flag, threads and
    other calls. *)
Theorem waitAll_observation_only s i :
  callers s !! i = Some WaitLock ->
  (forall s' p c s'', callers s' !! i = Some c -> in_waitAll c ->
     step s' (CallerStep i p) = Some s'' ->
     same_shared s' s'' /\ length (callers s'') = length (callers s')
     /\ (forall j, j <> i -> callers s'' !! j = callers s' !! j))
  /\ (forall tr s1, run s tr = Some s1 ->
        exists s1', run s (others i tr) = Some s1' /\ same_shared s1' s1
                    /\ length (callers s1') = length (callers s1)
                    /\ (forall j, j <> i -> callers s1' !! j = callers s1 !! j)).
Proof.
  intros Hi. split.
  - intros s' p c s'' Hc Hin H.
    destruct (waitAll_step_frame _ _ _ _ _ Hc Hin H) as (H1 & H2 & H3 & _). done.
  - intros tr s1 H. by apply run_without_waitAll.
Qed.

Lemma waitAll_observation_only_witness :
  same_shared (call WaitAll busy_state)
    (set_caller 3 WaitBlocked (call WaitAll busy_state)).
Proof.
  refine (proj1 (proj1 (waitAll_observation_only (call WaitAll busy_state) 3
                          eq_refl)
                   (call WaitAll busy_state) O WaitLock
                   (set_caller 3 WaitBlocked (call WaitAll busy_state))
                   eq_refl _ eq_refl)).
  left. reflexivity.
Defined.

(** * Further properties *)

Lemma exited_nonneg t : 0 <= exited t.
Proof. destruct t as [[] ?]; unfold exited; simpl; lia. Qed.
Lemma asleep_nonneg t : 0 <= asleep t.
Proof. destruct t as [[] ?]; unfold asleep; simpl; lia. Qed.
Lemma awake_nonneg t : 0 <= awake t.
Proof. destruct t as [[] ?]; unfold awake; simpl; lia. Qed.
Lemma joined_nonneg t : 0 <= joined t.
Proof. destruct t as [? []]; unfold joined; simpl; lia. Qed.
Lemma worker_will_notify_nonneg t : 0 <= worker_will_notify t.
Proof.
  destruct t as [[] ?]; unfold worker_will_notify; simpl; try lia.
  destruct (_ =? _); lia.
Qed.
Lemma caller_will_notify_nonneg c : 0 <= caller_will_notify c.
Proof. destruct c; simpl; try lia. destruct (_ =? _); lia. Qed.
Lemma at_EnqNotify_nonneg c : 0 <= at_EnqNotify c.
Proof. destruct c; simpl; lia. Qed.
Lemma at_JoinNotify_nonneg c : 0 <= at_JoinNotify c.
Proof. destruct c; simpl; lia. Qed.
Lemma at_WaitBlocked_nonneg c : 0 <= at_WaitBlocked c.
Proof. destruct c; simpl; lia. Qed.

Lemma total_fmap_zero {A : Type} (f : A -> Z) (g : A -> A) (l : list A) :
  (forall x, f (g x) = 0) -> total f (g <$> l) = 0.
Proof. intros Hf. induction l as [|x l IH]; csimpl; [done|]. rewrite Hf, IH. done. Qed.

Lemma asleep_wake_all (ts : list thread) : total asleep (wake <$> ts) = 0.
Proof. apply total_fmap_zero. intros [[] ?]; reflexivity. Qed.

Lemma awake_wake_all (ts : list thread) :
  total awake (wake <$> ts) = total awake ts + total asleep ts.
Proof.
  induction ts as [|[[] ?] ts IH]; csimpl; [done|..];
    unfold awake, asleep, wake, is_waiting in *; simpl; lia.
Qed.

Lemma at_WaitBlocked_wake_all (cs : list caller) :
  total at_WaitBlocked (wake_caller <$> cs) = 0.
Proof. apply total_fmap_zero. intros []; reflexivity. Qed.

Lemma existsb_waiting_asleep (ts : list thread) :
  existsb is_waiting ts = false -> total asleep ts = 0.
Proof.
  induction ts as [|[[] ?] ts IH]; simpl; [done|..];
    unfold asleep, is_waiting in *; simpl; try done; intros H; rewrite IH; done.
Qed.

(** The sums of the counting functions after one transition. *)
Ltac counts :=
  repeat match goal with
  | |- context [total ?f (<[?i := ?x]> (?g <$> ?l))] =>
      match goal with
      | H : l !! i = Some ?y |- _ =>
          rewrite (total_insert f (g <$> l) i x (g y))
            by (rewrite list_lookup_fmap, H; reflexivity)
      end
  | |- context [total ?f (<[?i := ?x]> ?l)] =>
      match goal with
      | H : l !! i = Some ?y |- _ => rewrite (total_insert f l i x y H)
      end
  | |- context [total _ (_ ++ _)] => rewrite total_app
  | |- context [total asleep (wake <$> _)] => rewrite asleep_wake_all
  | |- context [total awake (wake <$> _)] => rewrite awake_wake_all
  | |- context [total at_WaitBlocked (wake_caller <$> _)] =>
      rewrite at_WaitBlocked_wake_all
  | |- context [total ?f (wake_caller <$> ?l)] =>
      rewrite (total_fmap f wake_caller l) by (intros []; reflexivity)
  | |- context [total ?f (wake <$> ?l)] =>
      rewrite (total_fmap f wake l) by (intros [[] ?]; reflexivity)
  end.

(** What a thread or a call found at some index contributes. *)
Ltac found f Hf :=
  repeat match goal with
  | H : _ !! _ = Some ?x |- _ =>
      lazymatch goal with
      | _ : f x <= total f _ |- _ => fail
      | _ => pose proof (total_lookup_le f _ _ _ Hf H)
      end
  end.

Lemma queue_size_zero (q : list entry) : Z.of_nat (length q) <= 0 -> q = [].
Proof. destruct q; simpl; [done|lia]. Qed.

Ltac settle :=
  repeat match goal with
  | H : job_available _ = false |- _ => unfold job_available in H
  | H : ?x = ?x -> _ |- _ => specialize (H eq_refl)
  | H : _ || _ = false |- _ => apply orb_false_elim in H as [? ?]; bool_facts
  | H : Z.of_nat (length ?q) <= 0 |- _ => apply queue_size_zero in H
  | H : ?q = [], H' : ?q <> [] |- _ => destruct (H' H)
  | H : [] <> [] |- _ => destruct (H eq_refl)
  | H : ?b = true, H' : ?b = false |- _ => congruence
  | H : ?P -> _, H' : ?P |- _ => specialize (H H')
  | H : _queue ?s = _ :: _, H' : _queue ?s <> [] -> _ |- _ =>
      let X := fresh in
      assert (_queue s <> []) as X by (rewrite H; done); specialize (H' X)
  end;
  try lia.

Lemma threads_length_step s ev s' :
  step s ev = Some s' -> length (threads s') = length (threads s).
Proof.
  intros H. step_cases H; rewrite ?length_insert, ?length_fmap; done.
Qed.

Lemma pool_intact_step s ev s' :
  pool_intact s -> step s ev = Some s' -> pool_intact s'.
Proof.
  unfold pool_intact. intros Hs H.
  pose proof (total_nonneg exited (threads s) exited_nonneg).
  pose proof (total_nonneg joined (threads s) joined_nonneg).
  step_cases H; found exited exited_nonneg; found joined joined_nonneg;
    simpl in *; intros Hb; try done; try specialize (Hs Hb); counts;
    unfold exited, joined in *; simpl in *; try congruence; try lia.
Qed.

Lemma workers_alert_step s ev s' :
  workers_alert s -> step s ev = Some s' -> workers_alert s'.
Proof.
  intros (Hp & Hsum & Hq & Hb) H.
  pose proof (pool_intact_step _ _ _ Hp H) as Hp'.
  pose proof (threads_length_step _ _ _ H) as Hlen.
  split; [done|]. clear Hp'. unfold pool_intact in Hp.
  pose proof (total_nonneg exited (threads s) exited_nonneg).
  pose proof (total_nonneg asleep (threads s) asleep_nonneg).
  pose proof (total_nonneg awake (threads s) awake_nonneg).
  pose proof (total_nonneg at_EnqNotify (callers s) at_EnqNotify_nonneg).
  pose proof (total_nonneg at_JoinNotify (callers s) at_JoinNotify_nonneg).
  assert (threads s <> [] -> 1 <= Z.of_nat (length (threads s))) as Hne.
  { destruct (threads s); [done|]. simpl. lia. }
  assert (threads s' <> [] -> threads s <> []) as Hne'.
  { intros Hn Hs. apply Hn. apply length_zero_iff_nil. rewrite Hlen, Hs. done. }
  rewrite Hlen. clear Hlen.
  step_cases H;
    repeat match goal with
    | H : existsb is_waiting _ = false |- _ => apply existsb_waiting_asleep in H
    end;
    found exited exited_nonneg; found asleep asleep_nonneg;
    found awake awake_nonneg; found at_EnqNotify at_EnqNotify_nonneg;
    found at_JoinNotify at_JoinNotify_nonneg;
    simpl in *; counts; unfold exited, asleep, awake in *; simpl in *.
  all: split_and!; [lia | intros ? ? ? | intros ?]; settle.
Qed.

Lemma waiters_alert_step s ev s' :
  accounted s -> Z.of_nat (submitted s') < size_modulus ->
  waiters_alert s -> step s ev = Some s' -> waiters_alert s'.
Proof.
  intros Hacc Hsub Hw H. unfold waiters_alert in *.
  pose proof (submitted_step_calls _ _ _ H) as Hsc.
  assert (0 <= enqueue_calls [ev]) as Hev by apply enqueue_calls_nonneg.
  pose proof (accounted_jobsLeft_lt s Hacc ltac:(lia)) as Hj.
  destruct Hacc as (Hjl & Hle & _). unfold owed in *.
  pose proof (total_nonneg at_WaitBlocked (callers s) at_WaitBlocked_nonneg).
  pose proof (total_nonneg worker_will_notify (threads s) worker_will_notify_nonneg).
  pose proof (total_nonneg caller_will_notify (callers s) caller_will_notify_nonneg).
  clear Hsc Hev.
  step_cases H; owed_facts s;
    found at_WaitBlocked at_WaitBlocked_nonneg;
    found worker_will_notify worker_will_notify_nonneg;
    found caller_will_notify caller_will_notify_nonneg;
    simpl in *; counts; unfold worker_will_notify, worker_owed in *; simpl in *;
    repeat match goal with
    | |- context [wrap ?z] => rewrite (wrap_small z) by lia
    end;
    repeat match goal with
    | |- context [?a =? 0] => destruct (Z.eqb_spec a 0)
    | H : context [?a =? 0] |- _ => destruct (Z.eqb_spec a 0)
    end;
    intros; try lia.
Qed.

(** ** Invariants along a run *)

Lemma invariant_run (P : state -> Prop) :
  (forall s ev s', P s -> step s ev = Some s' -> P s') ->
  forall tr s s', P s -> run s tr = Some s' -> P s'.
Proof.
  intros Hstep. induction tr as [|ev tr IH]; intros s s' Hs H; simpl in H.
  - by simplify_eq.
  - destruct (step s ev) as [s1|] eqn:E; [|done]. eauto.
Qed.

Lemma total_zero_lookup {A : Type} (f : A -> Z) (l : list A) (i : nat) (x : A) :
  (forall y, 0 <= f y) -> total f l = 0 -> l !! i = Some x -> f x = 0.
Proof.
  intros Hf Hz Hi. pose proof (total_lookup_le f l i x Hf Hi). specialize (Hf x). lia.
Qed.

Lemma total_pos_lookup {A : Type} (f : A -> Z) (l : list A) :
  1 <= total f l -> exists i x, l !! i = Some x /\ 1 <= f x.
Proof.
  induction l as [|y l IH]; simpl; [lia|]. intros H.
  destruct (Z_lt_le_dec (f y) 1) as [Hy|Hy].
  - destruct IH as (i & x & Hi & Hx); [lia|]. by exists (S i), x.
  - by exists O, y.
Qed.

Lemma workers_alert_fresh n : workers_alert (fresh n).
Proof.
  unfold workers_alert, pool_intact, fresh. simpl.
  rewrite !total_replicate, length_replicate. unfold exited, asleep, awake, joined. simpl.
  split_and!; (done || lia).
Qed.

Lemma workers_alert_reachable threadCount s0 tr s :
  ConcurrentQueue threadCount = Normal s0 -> run s0 tr = Some s ->
  workers_alert s.
Proof.
  intros H0 Hrun. apply ConcurrentQueue_Normal in H0 as [_ ->].
  apply (invariant_run workers_alert workers_alert_step tr _ _
           (workers_alert_fresh _) Hrun).
Qed.

Lemma threads_length_run s tr s' :
  run s tr = Some s' -> length (threads s') = length (threads s).
Proof.
  intros H.
  apply (invariant_run (fun x => length (threads x) = length (threads s))
           (fun a ev b Ha Hs => eq_trans (threads_length_step a ev b Hs) Ha)
           tr s s' eq_refl H).
Qed.

(** X1: the pool keeps the size it was constructed with. *)
Theorem thread_count_constant threadCount s0 tr s :
  ConcurrentQueue threadCount = Normal s0 -> run s0 tr = Some s ->
  length (threads s) = Z.to_nat threadCount.
Proof.
  intros H0 Hrun. rewrite (threads_length_run _ _ _ Hrun).
  apply ConcurrentQueue_Normal in H0 as [_ ->]. simpl. apply length_replicate.
Qed.

Lemma thread_count_constant_witness :
  length (threads busy_state) = Z.to_nat 2.
Proof.
  apply (thread_count_constant 2 (fresh 2) busy_trace busy_state); reflexivity.
Defined.

(** X2: as long as [bailout] is not set no worker has left its loop and
    every thread is still joinable. *)
Theorem workers_stay_until_shutdown threadCount s0 tr s i t :
  ConcurrentQueue threadCount = Normal s0 -> run s0 tr = Some s ->
  bailout s = false -> threads s !! i = Some t ->
  pc t <> WExited /\ joinable t = true.
Proof.
  intros H0 Hrun Hb Ht.
  destruct (workers_alert_reachable _ _ _ _ H0 Hrun) as (Hp & _).
  destruct (Hp Hb) as [He Hj].
  pose proof (total_zero_lookup exited _ _ _ exited_nonneg He Ht) as H1.
  pose proof (total_zero_lookup joined _ _ _ joined_nonneg Hj Ht) as H2.
  destruct t as [[] []]; unfold exited, joined in *; simpl in *; done.
Qed.

Lemma workers_stay_until_shutdown_witness :
  pc (Thread WFinalize true) <> WExited /\ joinable (Thread WFinalize true) = true.
Proof.
  apply (workers_stay_until_shutdown 2 (fresh 2) busy_trace busy_state 0
           (Thread WFinalize true)); reflexivity.
Defined.

(** X3: no wake-up of a worker is lost.  While [bailout] is not set, a
    non-empty queue never coexists with a pool that is all asleep unless an
    [enqueue] still stands before its [notify_one]. *)
Theorem job_wakeup_not_lost threadCount s0 tr s :
  ConcurrentQueue threadCount = Normal s0 -> run s0 tr = Some s ->
  bailout s = false -> _queue s <> [] -> threads s <> [] ->
  (exists i t, threads s !! i = Some t /\ pc t <> WWaiting /\ pc t <> WExited)
  \/ (exists i, callers s !! i = Some EnqNotify).
Proof.
  intros H0 Hrun Hb Hq Ht.
  destruct (workers_alert_reachable _ _ _ _ H0 Hrun) as (_ & _ & Hw & _).
  specialize (Hw Hb Hq Ht).
  pose proof (total_nonneg awake (threads s) awake_nonneg).
  destruct (Z_lt_le_dec (total awake (threads s)) 1) as [Hlt|Hge].
  - right. destruct (total_pos_lookup at_EnqNotify (callers s)) as (i & c & Hi & Hc);
      [lia|]. exists i. destruct c; simpl in Hc; (done || lia).
  - left. destruct (total_pos_lookup awake (threads s) Hge) as (i & t & Hi & Hc).
    exists i, t. split; [done|].
    destruct t as [[] ?]; unfold awake in Hc; simpl in *; split; (done || lia).
Qed.

Lemma job_wakeup_not_lost_witness :
  (exists i t, threads queued_state !! i = Some t
               /\ pc t <> WWaiting /\ pc t <> WExited)
  \/ (exists i, callers queued_state !! i = Some EnqNotify).
Proof.
  apply (job_wakeup_not_lost 2 (fresh 2) queued_trace queued_state);
    [reflexivity | reflexivity | reflexivity | discriminate | discriminate].
Defined.

(** X4: no wake-up for shutdown is lost.  Once [bailout] is set, a worker is
    asleep only while a [joinAll] still stands before its [notify_all]. *)
Theorem shutdown_wakeup_not_lost threadCount s0 tr s i t :
  ConcurrentQueue threadCount = Normal s0 -> run s0 tr = Some s ->
  bailout s = true -> threads s !! i = Some t -> pc t = WWaiting ->
  exists j, callers s !! j = Some JoinNotify.
Proof.
  intros H0 Hrun Hb Ht Hpc.
  destruct (workers_alert_reachable _ _ _ _ H0 Hrun) as (_ & _ & _ & Hw).
  destruct (Hw Hb) as [Hj|Hz].
  - destruct (total_pos_lookup at_JoinNotify (callers s) Hj) as (j & c & Hi & Hc).
    exists j. destruct c; simpl in Hc; (done || lia).
  - pose proof (total_zero_lookup asleep _ _ _ asleep_nonneg Hz Ht) as H1.
    unfold asleep in H1. rewrite Hpc in H1. done.
Qed.

Lemma shutdown_wakeup_not_lost_witness :
  exists j, callers joining_state !! j = Some JoinNotify.
Proof.
  apply (shutdown_wakeup_not_lost 1 (fresh 1) joining_trace joining_state 0
           (Thread WWaiting true)); reflexivity.
Defined.

Lemma serving_step s ev s' :
  (Z.of_nat (submitted s) < size_modulus -> accounted s /\ waiters_alert s) ->
  step s ev = Some s' ->
  Z.of_nat (submitted s') < size_modulus -> accounted s' /\ waiters_alert s'.
Proof.
  intros Hs H Hsub.
  pose proof (submitted_step_calls _ _ _ H) as Hsc.
  assert (0 <= enqueue_calls [ev]) as Hev by apply enqueue_calls_nonneg.
  destruct Hs as [Hacc Hw]; [lia|].
  split; [by eapply accounted_step|by eapply waiters_alert_step].
Qed.

Lemma waiters_alert_reachable threadCount s0 tr s :
  ConcurrentQueue threadCount = Normal s0 -> run s0 tr = Some s ->
  enqueue_calls tr < size_modulus -> waiters_alert s.
Proof.
  intros H0 Hrun Hlt.
  assert (Z.of_nat (submitted s) < size_modulus) as Hsub.
  { rewrite (submitted_run _ _ _ Hrun).
    apply ConcurrentQueue_Normal in H0 as [_ ->]. simpl. lia. }
  refine (proj2 (invariant_run _ serving_step tr s0 s _ Hrun Hsub)).
  intros _. split; [by eapply accounted_init|].
  apply ConcurrentQueue_Normal in H0 as [_ ->]. unfold waiters_alert. simpl. lia.
Qed.

(** X5: no wake-up of a waitAll is lost.  Whenever a waitAll call is asleep,
    either the counter is not zero or somebody who has read the zero
    still stands before its [_waitVar.notify_all()]. *)
Theorem waitAll_wakeup_not_lost threadCount s0 tr s i :
  ConcurrentQueue threadCount = Normal s0 -> run s0 tr = Some s ->
  enqueue_calls tr < size_modulus ->
  callers s !! i = Some WaitBlocked ->
  jobsLeft s <> 0
  \/ (exists j t, threads s !! j = Some t /\ pc t = WNotify 0)
  \/ (exists j size, callers s !! j = Some (CanNotify size 0)).
Proof.
  intros H0 Hrun Hlt Hi.
  pose proof (waiters_alert_reachable _ _ _ _ H0 Hrun Hlt) as Hw.
  pose proof (total_lookup_le at_WaitBlocked _ _ _ at_WaitBlocked_nonneg Hi) as Hb.
  simpl in Hb. destruct (Hw Hb) as [Hj|Hn]; [by left|right].
  pose proof (total_nonneg worker_will_notify (threads s) worker_will_notify_nonneg).
  destruct (Z_lt_le_dec (total worker_will_notify (threads s)) 1) as [Hlt1|Hge].
  - right. destruct (total_pos_lookup caller_will_notify (callers s)) as (j & c & Hc & Hp);
      [lia|]. destruct c; simpl in Hp; try lia.
    destruct (Z.eqb_spec remainingJobs 0) as [->|]; [|lia]. eauto.
  - left. destruct (total_pos_lookup worker_will_notify (threads s) Hge) as (j & t & Ht & Hp).
    exists j, t. split; [done|].
    destruct t as [[] ?]; unfold worker_will_notify in Hp; simpl in *; try lia.
    destruct (Z.eqb_spec remainingJobs 0) as [->|]; [done|lia].
Qed.

Lemma waitAll_wakeup_not_lost_witness :
  jobsLeft waiting_state <> 0
  \/ (exists j t, threads waiting_state !! j = Some t /\ pc t = WNotify 0)
  \/ (exists j size, callers waiting_state !! j = Some (CanNotify size 0)).
Proof.
  apply (waitAll_wakeup_not_lost 1 (fresh 1) waiting_trace waiting_state 1);
    [reflexivity | reflexivity | vm_compute; reflexivity | reflexivity].
Defined.

Lemma at_JoinLock_nonneg c : 0 <= at_JoinLock c.
Proof. destruct c; simpl; lia. Qed.

Lemma not_shut_down_step s ev s' :
  not_shut_down s -> step s ev = Some s' -> is_Call_JoinAll ev = false ->
  not_shut_down s'.
Proof.
  unfold not_shut_down. intros [Hb Hz] H Hev.
  pose proof (total_nonneg at_JoinLock (callers s) at_JoinLock_nonneg) as Hnn.
  step_cases H; try done; found at_JoinLock at_JoinLock_nonneg;
    simpl in *; counts; simpl; try (exfalso; lia);
    (split; [done || congruence|]); lia.
Qed.

Lemma not_shut_down_run tr : forall s s',
  not_shut_down s -> run s tr = Some s' ->
  Forall (fun ev => is_Call_JoinAll ev = false) tr -> not_shut_down s'.
Proof.
  induction tr as [|ev tr IH]; intros s s' Hs H Hall; simpl in H.
  - by simplify_eq.
  - destruct (step s ev) as [s1|] eqn:E; [|done].
    apply Forall_cons in Hall as [Hev Hall].
    eauto using not_shut_down_step.
Qed.

(** X6: the shutdown flag is write-once, and only [joinAll] writes it: once
    set it stays set in every later state, and it is not set in a run in
    which [joinAll] (the destructor) was never called. *)
Theorem bailout_write_once threadCount s0 tr s tr' s' :
  ConcurrentQueue threadCount = Normal s0 -> run s0 tr = Some s ->
  run s tr' = Some s' ->
  (bailout s = true -> bailout s' = true)
  /\ (Forall (fun ev => is_Call_JoinAll ev = false) tr -> bailout s = false).
Proof.
  intros H0 Hrun Hrun'. split; [intros Hb; by apply (bailout_run s tr' s')|].
  intros Hall. apply (not_shut_down_run tr s0 s); [|done|done].
  apply ConcurrentQueue_Normal in H0 as [_ ->]. by split.
Qed.

Lemma bailout_write_once_witness :
  (bailout joining_state = true -> bailout joined_state = true)
  /\ (Forall (fun ev => is_Call_JoinAll ev = false) joining_trace ->
      bailout joining_state = false).
Proof.
  apply (bailout_write_once 1 (fresh 1) joining_trace joining_state
           [CallerStep 0 0; WorkerStep 0 Returns; CallerStep 0 0] joined_state);
    reflexivity.
Defined.

(** ** joinAll returns after the last worker *)

Lemma detached_running_nonneg t : 0 <= detached_running t.
Proof. destruct t as [[] []]; unfold detached_running; simpl; lia. Qed.

Lemma detached_step s ev s' :
  total detached_running (threads s) = 0 -> step s ev = Some s' ->
  total detached_running (threads s') = 0.
Proof.
  intros Hz H.
  step_cases H; found detached_running detached_running_nonneg;
    simpl in *; counts; unfold detached_running in *; simpl in *;
    repeat match goal with
    | |- context [if ?b then _ else _] => destruct b
    | H : context [if ?b then _ else _] |- _ => destruct b
    end; lia.
Qed.

(** A joined thread stays as it is. *)
Lemma joined_thread_step s ev s' j :
  step s ev = Some s' -> threads s !! j = Some (Thread WExited false) ->
  threads s' !! j = Some (Thread WExited false).
Proof.
  intros H Hj. pose proof (lookup_lt_Some _ _ _ Hj) as Hlt.
  step_cases H; try done;
    try (rewrite list_lookup_fmap, Hj; done);
    match goal with
    | |- <[?i0 := _]> _ !! _ = _ =>
        destruct (decide (j = i0)) as [->|];
        [simplify_eq; try (by rewrite list_lookup_insert_eq)
        |by rewrite list_lookup_insert_ne]
    end.
Qed.

(** Where a call stood one transition earlier, when the transition was
    not its own. *)
Lemma caller_before s ev s' i c' :
  step s ev = Some s' -> callers s' !! i = Some c' ->
  (forall p, ev <> CallerStep i p) -> ev <> SpuriousCaller i ->
  callers s !! i = Some c'
  \/ (callers s !! i = Some WaitBlocked /\ c' = WaitWoken)
  \/ (callers s !! i = None
      /\ (c' = CanSwap \/ c' = WaitLock \/ c' = JoinLock \/ exists e, c' = EnqInc e)).
Proof.
  intros H Hi Hne1 Hne2.
  destruct (callers s !! i) as [c|] eqn:Hc.
  - destruct (caller_other _ _ _ _ _ H Hc Hne1 Hne2) as [Hc'|[-> Hc']];
      rewrite Hc' in Hi; simplify_eq; auto.
  - right; right. split; [done|].
    apply lookup_ge_None in Hc.
    step_cases H;
      try (apply lookup_lt_Some in Hi; simpl in Hi;
           rewrite ?length_insert, ?length_fmap in Hi; lia).
    all: apply lookup_app_Some in Hi as [Hi|[_ Hi]];
      [apply lookup_lt_Some in Hi; lia|].
    all: destruct (i - length (callers s))%nat; simplify_eq/=; eauto.
Qed.

Lemma joined_prefix_step s ev s' :
  joining s -> step s ev = Some s' -> joined_prefix s'.
Proof.
  intros [Hz Hp] H i k Hi j t Hjk Hj.
  assert (forall k0, callers s !! i = Some (JoinThreads k0) -> (j < k0)%nat ->
            t = Thread WExited false) as Hold.
  { intros k0 Hi0 Hlt.
    assert (is_Some (threads s !! j)) as [t0 Ht0].
    { apply lookup_lt_is_Some. rewrite <- (threads_length_step _ _ _ H).
      by eapply lookup_lt_Some. }
    rewrite (Hp i k0 Hi0 j t0 Hlt Ht0) in Ht0.
    pose proof (joined_thread_step _ _ _ _ H Ht0) as Hj'. congruence. }
  destruct (event_cases i ev) as [[p ->]|[->|[Hne1 Hne2]]].
  - pose proof (step_fault _ _ _ H) as Hf. unfold step in H. rewrite Hf in H.
    destruct (callers s !! i) as [c|] eqn:Hc; [|done].
    pose proof (lookup_lt_Some _ _ _ Hc) as Hlen.
    destruct c; simpl in H;
      unfold notify_one_jobAvailableVar, finalizeJobs_locked,
        finalizeJobs_signal in H;
      repeat case_match; simplify_eq/=;
      rewrite ?list_lookup_insert_eq in Hi by (by rewrite ?length_fmap);
      simplify_eq; try lia.
    + destruct (decide (j = k0)) as [->|Hne].
      * rewrite list_lookup_insert_eq in Hj by (by eapply lookup_lt_Some).
        congruence.
      * rewrite list_lookup_insert_ne in Hj by done.
        apply (Hp i k0 Hc j t); [lia|done].
    + destruct (decide (j = k0)) as [->|Hne].
      * pose proof (total_zero_lookup detached_running _ _ _
                      detached_running_nonneg Hz Hj) as Hd.
        match goal with
        | Hx : threads s !! k0 = Some ?x, Hy : joinable ?x = false |- _ =>
            assert (t = x) as -> by congruence;
            destruct x as [[] []]; unfold detached_running in Hd;
            simpl in *; (done || lia)
        end.
      * apply (Hp i k0 Hc j t); [lia|done].
  - apply spurious_caller_step in H as [_ ->]. simpl in Hi.
    destruct (decide (i < length (callers s))%nat).
    + rewrite list_lookup_insert_eq in Hi by done. done.
    + rewrite list_insert_ge in Hi by lia.
      apply lookup_lt_Some in Hi. lia.
  - destruct (caller_before _ _ _ _ _ H Hi Hne1 Hne2)
      as [Hc|[[_ ?]|[_ [?|[?|[?|[e ?]]]]]]]; try done.
    by apply (Hold k).
Qed.

Lemma joining_step s ev s' : joining s -> step s ev = Some s' -> joining s'.
Proof.
  intros Hs H. split; [by eapply detached_step, H; apply Hs|by eapply joined_prefix_step].
Qed.

Lemma joining_reachable threadCount s0 tr s :
  ConcurrentQueue threadCount = Normal s0 -> run s0 tr = Some s -> joining s.
Proof.
  intros H0 Hrun. apply (invariant_run joining joining_step tr s0 s); [|done].
  apply ConcurrentQueue_Normal in H0 as [_ ->]. split.
  - simpl. rewrite total_replicate. unfold detached_running. simpl. lia.
  - intros i k Hi. done.
Qed.

(** X7: a [joinAll] that went through its loop returns only after every
    worker has left [nextJob] and has been joined. *)
Theorem joinAll_returns_after_workers threadCount s0 tr s i k p s' :
  ConcurrentQueue threadCount = Normal s0 -> run s0 tr = Some s ->
  callers s !! i = Some (JoinThreads k) ->
  step s (CallerStep i p) = Some s' ->
  callers s' !! i = Some (Returned None) ->
  Forall (fun t => t = Thread WExited false) (threads s').
Proof.
  intros H0 Hrun Hi H Hret.
  destruct (joining_reachable _ _ _ _ H0 Hrun) as [_ Hp].
  pose proof (lookup_lt_Some _ _ _ Hi) as Hlen.
  pose proof (step_fault _ _ _ H) as Hf. unfold step in H. rewrite Hf, Hi in H.
  simpl in H. destruct (threads s !! k) as [x|] eqn:Hk.
  - destruct (joinable x); [destruct (pc x)|]; simplify_eq/=;
      rewrite list_lookup_insert_eq in Hret by done; done.
  - simplify_eq/=. apply Forall_lookup. intros j t Hj.
    apply (Hp i k Hi j t); [|done].
    apply lookup_ge_None in Hk. apply lookup_lt_Some in Hj. lia.
Qed.

Lemma joinAll_returns_after_workers_witness :
  Forall (fun t => t = Thread WExited false)
         (threads (set_caller 0 (Returned None) joined_state)).
Proof.
  apply (joinAll_returns_after_workers 1 (fresh 1) joined_trace joined_state
           0 1 0 (set_caller 0 (Returned None) joined_state)); reflexivity.
Defined.

(** ** Each job is called at most once *)

Lemma total_hit_elem t (l : list nat) : 1 <= total (hit t) l -> t ∈ l.
Proof.
  intros H. destruct (total_pos_lookup (hit t) l H) as (i & x & Hi & Hx).
  unfold hit in Hx. destruct (Nat.eqb_spec x t) as [->|]; [|lia].
  by eapply list_elem_of_lookup_2.
Qed.

Lemma total_hit_NoDup (l : list nat) :
  (forall t, total (hit t) l <= 1) -> NoDup l.
Proof.
  induction l as [|x l IH]; intros H; [constructor|].
  constructor.
  - intros Hx. pose proof (total_elem (hit x) l x (hit_nonneg x) Hx) as Hl.
    specialize (H x). simpl in H. rewrite hit_same in *. lia.
  - apply IH. intros t. specialize (H t). simpl in H.
    pose proof (hit_nonneg t x). lia.
Qed.

Lemma executed_le_occ s ev s' t :
  step s ev = Some s' -> total (hit t) (executed s') <= occ t s.
Proof.
  intros H. unfold occ.
  pose proof (total_nonneg (fun e => hit t (ticket e)) (_queue s)
                (fun e => hit_nonneg t (ticket e))).
  pose proof (total_nonneg (caller_occ t) (callers s) (caller_occ_nonneg t)).
  pose proof (total_nonneg (worker_occ t) (threads s) (worker_occ_nonneg t)).
  pose proof (total_nonneg (hit t) (executed s) (hit_nonneg t)).
  step_cases H; found (worker_occ t) (worker_occ_nonneg t);
    unfold worker_occ in *; simpl in *; lia.
Qed.

(** X8: no job is called twice, and only submitted jobs are called: the
    log of called tickets never holds a ticket two times, and every ticket
    in it was handed out by an [enqueue] call. *)
Theorem job_called_at_most_once threadCount s0 tr s :
  ConcurrentQueue threadCount = Normal s0 -> run s0 tr = Some s ->
  NoDup (executed s) /\ Forall (fun t => (t < submitted s)%nat) (executed s).
Proof.
  intros H0 Hrun.
  assert (forall t, total (hit t) (executed s) <= 1
                    /\ (1 <= total (hit t) (executed s) -> (t < submitted s)%nat))
    as Hkey.
  { intros t. revert s Hrun.
    induction tr as [|ev tr0 _] using rev_ind; intros s Hrun.
    - simpl in Hrun. simplify_eq. apply ConcurrentQueue_Normal in H0 as [_ ->].
      simpl. lia.
    - rewrite run_app in Hrun. destruct (run s0 tr0) as [s1|] eqn:E; [|done].
      simpl in Hrun. destruct (step s1 ev) as [s2|] eqn:E2; simplify_eq.
      pose proof (executed_le_occ s1 ev s t E2) as Hle.
      pose proof (submitted_step_calls _ _ _ E2) as Hsub.
      pose proof (enqueue_calls_nonneg [ev]).
      destruct (tickets_ok_reachable _ _ _ _ H0 E (step_fault _ _ _ E2) t)
        as [H1 H2].
      split; [lia|]. intros Hpos.
      destruct (decide (t < submitted s1)%nat); [lia|].
      rewrite H2 in Hle by lia. lia. }
  split.
  - apply total_hit_NoDup. intros t. apply Hkey.
  - apply Forall_forall. intros t Ht. apply Hkey.
    pose proof (total_elem (hit t) _ _ (hit_nonneg t) Ht) as He.
    by rewrite hit_same in He.
Qed.

Lemma job_called_at_most_once_witness :
  NoDup (executed two_served_state)
  /\ Forall (fun t => (t < submitted two_served_state)%nat)
            (executed two_served_state).
Proof.
  apply (job_called_at_most_once 1 (fresh 1) (two_queued_trace ++ serve_two)
           two_served_state); reflexivity.
Defined.

(** ** Without cancelPending every job is called *)

Lemma at_CanSwap_nonneg c : 0 <= at_CanSwap c.
Proof. destruct c; simpl; lia. Qed.

Lemma no_swap_step s ev s' :
  total at_CanSwap (callers s) = 0 -> step s ev = Some s' ->
  is_Call_CancelPending ev = false -> total at_CanSwap (callers s') = 0.
Proof.
  intros Hz H Hev.
  step_cases H; try done; found at_CanSwap at_CanSwap_nonneg;
    simpl in *; counts; simpl; lia.
Qed.

(** Without a swap, and while the process lives, no ticket is dropped. *)
Lemma occ_step_exact t s ev s' :
  step s ev = Some s' -> total at_CanSwap (callers s) = 0 -> fault s' = None ->
  (submitted s' = submitted s /\ occ t s' = occ t s)
  \/ (submitted s' = S (submitted s)
      /\ occ t s' = occ t s + hit t (submitted s)).
Proof.
  intros H Hz Hf. unfold occ.
  step_cases H; found at_CanSwap at_CanSwap_nonneg;
    simpl in *; totals; unfold worker_occ, wake in *; simpl in *;
    try (left; split; [done|lia]); try (right; split; [done|lia]).
Qed.

Lemma all_tickets_kept_step s ev s' :
  tickets_ok s -> all_tickets_kept s -> step s ev = Some s' ->
  is_Call_CancelPending ev = false -> all_tickets_kept s'.
Proof.
  intros Htk Hs H Hev Hf'. destruct (Hs (step_fault _ _ _ H)) as [Hz Hocc].
  split; [by eapply no_swap_step|]. intros t Ht.
  destruct (occ_step_exact t _ _ _ H Hz Hf') as [[E ->]|[E ->]].
  - apply Hocc. lia.
  - destruct (decide (t = submitted s)) as [->|Hne].
    + rewrite hit_same.
      destruct (Htk (step_fault _ _ _ H) (submitted s)) as [_ ->]; [lia|done].
    + rewrite hit_other by done. rewrite Hocc by lia. done.
Qed.

Lemma all_tickets_kept_run tr : forall s s',
  tickets_ok s -> all_tickets_kept s -> run s tr = Some s' ->
  Forall (fun ev => is_Call_CancelPending ev = false) tr ->
  all_tickets_kept s'.
Proof.
  induction tr as [|ev tr IH]; intros s s' Htk Hs H Hall; simpl in H.
  - by simplify_eq.
  - destruct (step s ev) as [s1|] eqn:E; [|done].
    apply Forall_cons in Hall as [Hev Hall].
    apply (IH s1); [by eapply tickets_ok_step|by eapply all_tickets_kept_step|done|done].
Qed.

Lemma total_le {A : Type} (f g : A -> Z) (l : list A) :
  (forall x, f x <= g x) -> total f l <= total g l.
Proof.
  intros Hfg. induction l as [|x l IH]; simpl; [lia|]. specialize (Hfg x). lia.
Qed.

(** ** A counter at zero *)

(** What the counter invariant says when the counter is zero. *)
Lemma idle_at_zero s :
  accounted s -> jobsLeft s = 0 ->
  _queue s = [] /\ total caller_owed (callers s) = 0
  /\ total worker_owed (threads s) = 0.
Proof.
  intros (Hj & _ & _) Hz. unfold owed in Hj.
  pose proof (total_nonneg caller_owed (callers s) caller_owed_nonneg).
  pose proof (total_nonneg worker_owed (threads s) worker_owed_nonneg).
  split_and!; [|lia|lia]. apply queue_size_zero. lia.
Qed.

(** X9: the counter is authoritative.  When [jobsLeft] is zero the queue is
    empty, no worker holds or runs a job or stands before its decrement,
    no [enqueue] stands between its increment and its push, and no
    cancelPending holds jobs it has not yet subtracted. *)
Theorem counter_zero_means_idle threadCount s0 tr s :
  ConcurrentQueue threadCount = Normal s0 -> run s0 tr = Some s ->
  enqueue_calls tr < size_modulus -> jobsLeft s = 0 ->
  _queue s = []
  /\ (forall j t, threads s !! j = Some t ->
        pc t <> WFinalize /\ forall e, pc t <> WRun e)
  /\ (forall i c, callers s !! i = Some c ->
        (forall e, c <> EnqPush e)
        /\ (forall oldQueue, c = CanFinalize oldQueue -> oldQueue = [])).
Proof.
  intros H0 Hrun Hlt Hz.
  destruct (idle_at_zero s (accounted_reachable _ _ _ _ H0 Hrun Hlt) Hz)
    as (Hq & Hc & Hw).
  split; [done|]. split.
  - intros j t Ht.
    pose proof (total_zero_lookup worker_owed _ _ _ worker_owed_nonneg Hw Ht) as Hx.
    destruct t as [[] ?]; unfold worker_owed in Hx; simpl in *; split; (done || lia).
  - intros i c Hi.
    pose proof (total_zero_lookup caller_owed _ _ _ caller_owed_nonneg Hc Hi) as Hx.
    split.
    + intros e ->. simpl in Hx. lia.
    + intros q ->. simpl in Hx. apply queue_size_zero. lia.
Qed.

Lemma counter_zero_means_idle_witness :
  _queue served_state = []
  /\ (forall j t, threads served_state !! j = Some t ->
        pc t <> WFinalize /\ forall e, pc t <> WRun e)
  /\ (forall i c, callers served_state !! i = Some c ->
        (forall e, c <> EnqPush e)
        /\ (forall oldQueue, c = CanFinalize oldQueue -> oldQueue = [])).
Proof.
  apply (counter_zero_means_idle 1 (fresh 1) served_trace served_state);
    [reflexivity | reflexivity | vm_compute; reflexivity | reflexivity].
Defined.

(** X10: with no cancelPending in the run, and the process alive, a counter
    at zero means that every job submitted so far has been called exactly
    once, but for those whose [enqueue] has not yet incremented the
    counter. *)
Theorem all_jobs_called_once threadCount s0 tr s t :
  ConcurrentQueue threadCount = Normal s0 -> run s0 tr = Some s ->
  enqueue_calls tr < size_modulus ->
  Forall (fun ev => is_Call_CancelPending ev = false) tr ->
  fault s = None -> jobsLeft s = 0 -> (t < submitted s)%nat ->
  (t ∈ executed s /\ NoDup (executed s))
  \/ (exists i e, callers s !! i = Some (EnqInc e) /\ ticket e = t).
Proof.
  intros H0 Hrun Hlt Hall Hf Hz Ht.
  destruct (idle_at_zero s (accounted_reachable _ _ _ _ H0 Hrun Hlt) Hz)
    as (Hq & Hc & Hw).
  assert (all_tickets_kept s) as Hk.
  { pose proof H0 as H0'. apply ConcurrentQueue_Normal in H0' as [_ ->].
    apply (all_tickets_kept_run tr (fresh (Z.to_nat threadCount)) s);
      [|intros _; split; [done|simpl; lia]|done|done].
    intros _ x. rewrite occ_fresh. split; [lia|done]. }
  destruct (Hk Hf) as [_ Hocc]. specialize (Hocc t Ht). unfold occ in Hocc.
  rewrite Hq in Hocc. simpl in Hocc.
  assert (total (worker_occ t) (threads s) = 0) as Hwo.
  { pose proof (total_nonneg (worker_occ t) (threads s) (worker_occ_nonneg t)).
    pose proof (total_le (worker_occ t) worker_owed (threads s)) as Hle.
    cut (total (worker_occ t) (threads s) <= total worker_owed (threads s)); [lia|].
    apply Hle. intros [[] ?]; unfold worker_occ, worker_owed; simpl; try lia.
    unfold hit. destruct (_ =? _)%nat; lia. }
  pose proof (total_nonneg (hit t) (executed s) (hit_nonneg t)).
  pose proof (total_nonneg (caller_occ t) (callers s) (caller_occ_nonneg t)).
  destruct (Z_lt_le_dec (total (hit t) (executed s)) 1) as [Hlt1|Hge].
  - right. destruct (total_pos_lookup (caller_occ t) (callers s)) as (i & c & Hi & Hx);
      [lia|].
    pose proof (total_zero_lookup caller_owed _ _ _ caller_owed_nonneg Hc Hi) as Hy.
    destruct c; simpl in Hx, Hy; try lia.
    exists i, e. split; [done|]. unfold hit in Hx.
    destruct (Nat.eqb_spec (ticket e) t); [done|lia].
  - left. split; [by apply total_hit_elem|].
    apply total_hit_NoDup. intros x.
    destruct (tickets_ok_reachable _ _ _ _ H0 Hrun Hf x) as [Hle _]. unfold occ in Hle.
    pose proof (total_nonneg (fun e => hit x (ticket e)) (_queue s)
                  (fun e => hit_nonneg x (ticket e))).
    pose proof (total_nonneg (caller_occ x) (callers s) (caller_occ_nonneg x)).
    pose proof (total_nonneg (worker_occ x) (threads s) (worker_occ_nonneg x)).
    lia.
Qed.

Lemma all_jobs_called_once_witness :
  (O ∈ executed served_state /\ NoDup (executed served_state))
  \/ (exists i e, callers served_state !! i = Some (EnqInc e) /\ ticket e = O).
Proof.
  apply (all_jobs_called_once 1 (fresh 1) served_trace served_state 0);
    [reflexivity | reflexivity | vm_compute; reflexivity
    | repeat constructor | reflexivity | reflexivity | simpl; lia].
Defined.

Lemma no_job_in_hand s :
  total worker_owed (threads s) = 0 ->
  forall j t, threads s !! j = Some t ->
              pc t <> WFinalize /\ forall e, pc t <> WRun e.
Proof.
  intros Hw j t Ht.
  pose proof (total_zero_lookup worker_owed _ _ _ worker_owed_nonneg Hw Ht) as Hx.
  destruct t as [[] ?]; unfold worker_owed in Hx; simpl in *; split; (done || lia).
Qed.

Lemma enqueue_calls_prefix tr1 tr2 :
  enqueue_calls tr1 <= enqueue_calls (tr1 ++ tr2).
Proof. rewrite enqueue_calls_app. pose proof (enqueue_calls_nonneg tr2). lia. Qed.

(** X11: the barrier.  A waitAll call that has returned took its returning
    step in a state in which the counter was zero, the queue empty and no
    worker held or ran a job: everything submitted before that moment had
    been called and had returned, or had been cancelled. *)
Theorem waitAll_returns_when_idle threadCount s0 tr0 s i tr s' :
  ConcurrentQueue threadCount = Normal s0 -> run s0 tr0 = Some s ->
  callers s !! i = Some WaitLock ->
  run s tr = Some s' -> callers s' !! i = Some (Returned None) ->
  enqueue_calls (tr0 ++ tr) < size_modulus ->
  exists tr1 p tr2 s1,
    tr = tr1 ++ CallerStep i p :: tr2 /\ run s tr1 = Some s1
    /\ step s1 (CallerStep i p) = Some (set_caller i (Returned None) s1)
    /\ jobsLeft s1 = 0 /\ _queue s1 = []
    /\ (forall j t, threads s1 !! j = Some t ->
          pc t <> WFinalize /\ forall e, pc t <> WRun e).
Proof.
  intros H0 Hrun0 Hi Hrun Hret Hlt.
  assert (enqueue_calls tr0 < size_modulus) as Hlt0.
  { pose proof (enqueue_calls_prefix tr0 tr). lia. }
  pose proof (accounted_reachable _ _ _ _ H0 Hrun0 Hlt0) as Hacc.
  assert (0 <= jobsLeft s) as Hj.
  { apply accounted_jobsLeft_lt; [done|].
    rewrite (submitted_run _ _ _ Hrun0).
    apply ConcurrentQueue_Normal in H0 as [_ ->]. simpl. lia. }
  destruct (waitAll_returns_at_zero i tr s WaitLock s' Hi) as
    (tr1 & p & tr2 & s1 & -> & Hr1 & Hz & Hs1); [unfold in_waitAll; auto|done..|].
  exists tr1, p, tr2, s1. split_and!; try done.
  - assert (accounted s1) as Hacc1.
    { apply (accounted_reachable threadCount s0 (tr0 ++ tr1)); [done| |].
      - by rewrite run_app, Hrun0.
      - rewrite !enqueue_calls_app in *.
        pose proof (enqueue_calls_nonneg (CallerStep i p :: tr2)). lia. }
    by destruct (idle_at_zero s1 Hacc1 Hz).
  - assert (accounted s1) as Hacc1.
    { apply (accounted_reachable threadCount s0 (tr0 ++ tr1)); [done| |].
      - by rewrite run_app, Hrun0.
      - rewrite !enqueue_calls_app in *.
        pose proof (enqueue_calls_nonneg (CallerStep i p :: tr2)). lia. }
    destruct (idle_at_zero s1 Hacc1 Hz) as (_ & _ & Hw). by apply no_job_in_hand.
Qed.

Lemma waitAll_returns_when_idle_witness :
  exists tr1 p tr2 s1,
    [CallerStep 0 0] = tr1 ++ CallerStep 0 p :: tr2
    /\ run (call WaitAll (fresh 1)) tr1 = Some s1
    /\ step s1 (CallerStep 0 p) = Some (set_caller 0 (Returned None) s1)
    /\ jobsLeft s1 = 0 /\ _queue s1 = []
    /\ (forall j t, threads s1 !! j = Some t ->
          pc t <> WFinalize /\ forall e, pc t <> WRun e).
Proof.
  apply (waitAll_returns_when_idle 1 (fresh 1) [Call WaitAll]
           (call WaitAll (fresh 1)) 0 [CallerStep 0 0]
           (set_caller 0 (Returned None) (call WaitAll (fresh 1))));
    [reflexivity | reflexivity | reflexivity | reflexivity | reflexivity
    | vm_compute; reflexivity].
Defined.

(** ** Shutdown drops what is queued *)

Lemma carried_nonneg t s : 0 <= carried t s.
Proof.
  unfold carried.
  pose proof (total_nonneg (worker_occ t) (threads s) (worker_occ_nonneg t)).
  pose proof (total_nonneg (hit t) (executed s) (hit_nonneg t)). lia.
Qed.

(** With [bailout] set no worker takes a job from the queue. *)
Lemma carried_step t s ev s' :
  bailout s = true -> step s ev = Some s' -> carried t s' <= 2 * carried t s.
Proof.
  intros Hb H. unfold carried.
  pose proof (total_nonneg (worker_occ t) (threads s) (worker_occ_nonneg t)).
  pose proof (total_nonneg (hit t) (executed s) (hit_nonneg t)).
  step_cases H; try congruence; found (worker_occ t) (worker_occ_nonneg t);
    simpl in *; totals; unfold worker_occ, wake in *; simpl in *; lia.
Qed.

Lemma carried_zero_run t tr : forall s s',
  bailout s = true -> run s tr = Some s' -> carried t s = 0 -> carried t s' = 0.
Proof.
  induction tr as [|ev tr IH]; intros s s' Hb H Hz; simpl in H.
  - by simplify_eq.
  - destruct (step s ev) as [s1|] eqn:E; [|done].
    apply (IH s1); [by eapply bailout_step|done|].
    pose proof (carried_step t _ _ _ Hb E). pose proof (carried_nonneg t s1). lia.
Qed.

Lemma carried_zero_not_executed t s : carried t s = 0 -> t ∉ executed s.
Proof.
  intros Hz Hin. unfold carried in Hz.
  pose proof (total_nonneg (worker_occ t) (threads s) (worker_occ_nonneg t)).
  pose proof (total_elem (hit t) _ _ (hit_nonneg t) Hin) as He.
  rewrite hit_same in He. lia.
Qed.

(** X12: shutdown does not run what is pending.  Once [bailout] is set, the
    jobs still in the queue are never called, and neither is any job
    submitted from then on. *)
Theorem shutdown_drops_pending threadCount s0 tr0 s tr s' :
  ConcurrentQueue threadCount = Normal s0 -> run s0 tr0 = Some s ->
  fault s = None -> bailout s = true -> run s tr = Some s' ->
  (forall e, e ∈ _queue s -> ticket e ∉ executed s')
  /\ (forall t, (submitted s <= t)%nat -> t ∉ executed s').
Proof.
  intros H0 Hrun0 Hf Hb Hrun.
  pose proof (tickets_ok_reachable _ _ _ _ H0 Hrun0 Hf) as Htk.
  assert (forall t, occ t s <= 1 ->
            occ t s = 0 \/ 1 <= total (fun e => hit t (ticket e)) (_queue s) ->
            t ∉ executed s') as Hkey.
  { intros t Hle Hcase. apply carried_zero_not_executed.
    apply (carried_zero_run t tr s s' Hb Hrun). unfold carried, occ in *.
    pose proof (total_nonneg (fun e => hit t (ticket e)) (_queue s)
                  (fun e => hit_nonneg t (ticket e))).
    pose proof (total_nonneg (caller_occ t) (callers s) (caller_occ_nonneg t)).
    pose proof (total_nonneg (worker_occ t) (threads s) (worker_occ_nonneg t)).
    pose proof (total_nonneg (hit t) (executed s) (hit_nonneg t)). lia. }
  split.
  - intros e He. destruct (Htk (ticket e)) as [Hle _]. apply Hkey; [done|right].
    pose proof (total_elem (fun e0 => hit (ticket e) (ticket e0)) _ _
                  (fun e0 => hit_nonneg (ticket e) (ticket e0)) He) as Hq.
    simpl in Hq. by rewrite hit_same in Hq.
  - intros t Ht. destruct (Htk t) as [Hle Hz]. apply Hkey; [done|left]. by apply Hz.
Qed.

Lemma shutdown_drops_pending_witness :
  (forall e, e ∈ _queue closing_state -> ticket e ∉ executed closed_state)
  /\ (forall t, (submitted closing_state <= t)%nat -> t ∉ executed closed_state).
Proof.
  apply (shutdown_drops_pending 1 (fresh 1) closing_trace closing_state
           [WorkerStep 0 Returns] closed_state); reflexivity.
Defined.

(** ** First in, first out *)

Lemma pending_nonneg t s : 0 <= pending t s.
Proof.
  unfold pending.
  pose proof (total_nonneg (fun e => hit t (ticket e)) (_queue s)
                (fun e => hit_nonneg t (ticket e))).
  pose proof (total_nonneg (caller_occ t) (callers s) (caller_occ_nonneg t)). lia.
Qed.

Ltac hits t :=
  repeat match goal with
  | |- context [hit t ?x] =>
      lazymatch goal with
      | _ : 0 <= hit t x |- _ => fail
      | _ => pose proof (hit_nonneg t x)
      end
  end.

(** A ticket enters the queue only from the [enqueue] call that got it. *)
Lemma pending_step t s ev s' :
  step s ev = Some s' ->
  (submitted s' = submitted s /\ pending t s' <= pending t s)
  \/ (submitted s' = S (submitted s)
      /\ pending t s' = pending t s + hit t (submitted s)).
Proof.
  intros H. unfold pending.
  pose proof (total_nonneg (fun e => hit t (ticket e)) (_queue s)
                (fun e => hit_nonneg t (ticket e))) as Hq.
  step_cases H;
    repeat match goal with
    | H : _queue s = _ |- _ => rewrite H in *
    end;
    simpl in *; totals; simpl; hits t;
    try (right; split; [done|lia]); try (left; split; [done|lia]).
Qed.

Lemma pending_zero_step t s ev s' :
  step s ev = Some s' -> pending t s = 0 -> (t < submitted s)%nat ->
  pending t s' = 0 /\ (t < submitted s')%nat.
Proof.
  intros H Hz Hlt. pose proof (pending_nonneg t s').
  destruct (pending_step t _ _ _ H) as [[E Hle]|[E Heq]].
  - split; lia.
  - rewrite hit_other in Heq by lia. split; lia.
Qed.

Lemma in_order_step e1 e2 s ev s' :
  tickets_ok s -> in_order e1 e2 s -> step s ev = Some s' -> in_order e1 e2 s'.
Proof.
  intros Htk [[(l1 & l2 & l3 & Hq) Hne]|[Hz Hlt]] H;
    [|right; by eapply pending_zero_step].
  pose proof (step_fault _ _ _ H) as Hf.
  destruct (Htk Hf (ticket e1)) as [Ho1 Hs1].
  destruct (Htk Hf (ticket e2)) as [Ho2 _].
  assert (ticket e1 < submitted s)%nat as Hlt1.
  { destruct (decide (ticket e1 < submitted s)%nat); [done|].
    rewrite Hs1 in Ho1 by lia. unfold occ in Hs1.
    assert (occ (ticket e1) s = 0) as Hz by (apply Hs1; lia).
    unfold occ in Hz. rewrite Hq, !total_app in Hz. simpl in Hz.
    rewrite hit_same in Hz.
    pose proof (total_nonneg (fun e => hit (ticket e1) (ticket e)) l1
                  (fun e => hit_nonneg _ (ticket e))).
    pose proof (total_nonneg (fun e => hit (ticket e1) (ticket e)) (l2 ++ e2 :: l3)
                  (fun e => hit_nonneg _ (ticket e))).
    rewrite total_app in *. simpl in *.
    pose proof (total_nonneg (caller_occ (ticket e1)) (callers s) (caller_occ_nonneg _)).
    pose proof (total_nonneg (worker_occ (ticket e1)) (threads s) (worker_occ_nonneg _)).
    pose proof (total_nonneg (hit (ticket e1)) (executed s) (hit_nonneg _)). lia. }
  clear Hs1. unfold occ in Ho1, Ho2. rewrite Hq, !total_app in Ho1, Ho2.
  simpl in Ho1, Ho2. rewrite !total_app in Ho1, Ho2. simpl in Ho1, Ho2.
  rewrite hit_same in Ho1, Ho2.
  pose proof (total_nonneg (fun e => hit (ticket e1) (ticket e)) l1
                (fun e => hit_nonneg _ (ticket e))).
  pose proof (total_nonneg (fun e => hit (ticket e1) (ticket e)) l2
                (fun e => hit_nonneg _ (ticket e))).
  pose proof (total_nonneg (fun e => hit (ticket e1) (ticket e)) l3
                (fun e => hit_nonneg _ (ticket e))).
  pose proof (total_nonneg (fun e => hit (ticket e2) (ticket e)) l1
                (fun e => hit_nonneg _ (ticket e))).
  pose proof (total_nonneg (fun e => hit (ticket e2) (ticket e)) l2
                (fun e => hit_nonneg _ (ticket e))).
  pose proof (total_nonneg (fun e => hit (ticket e2) (ticket e)) l3
                (fun e => hit_nonneg _ (ticket e))).
  pose proof (hit_nonneg (ticket e1) (ticket e2)).
  pose proof (hit_nonneg (ticket e2) (ticket e1)).
  pose proof (total_nonneg (caller_occ (ticket e1)) (callers s) (caller_occ_nonneg _)).
  pose proof (total_nonneg (worker_occ (ticket e1)) (threads s) (worker_occ_nonneg _)).
  pose proof (total_nonneg (hit (ticket e1)) (executed s) (hit_nonneg _)).
  pose proof (total_nonneg (caller_occ (ticket e2)) (callers s) (caller_occ_nonneg _)).
  pose proof (total_nonneg (worker_occ (ticket e2)) (threads s) (worker_occ_nonneg _)).
  pose proof (total_nonneg (hit (ticket e2)) (executed s) (hit_nonneg _)).
  unfold in_order, pending.
  step_cases H; found (worker_occ (ticket e2)) (worker_occ_nonneg (ticket e2));
    simpl in *;
    try (left; split; [by exists l1, l2, l3|done]).
  - left. split; [|done]. exists l1, l2, (l3 ++ [e]).
    by rewrite Hq, <- app_assoc, <- app_comm_cons, <- app_assoc.
  - right. split; [|done]. counts. simpl. lia.
  - rewrite Hq in *. destruct l1 as [|x l1]; simplify_eq/=.
    + right. split; [|done]. rewrite total_app. simpl. lia.
    + left. split; [by exists l1, l2, l3|done].
  - rewrite Hq in *. destruct l1 as [|x l1]; simplify_eq/=.
    + right. split; [|done]. rewrite total_app. simpl. lia.
    + left. split; [by exists l1, l2, l3|done].
  - left. split; [by exists l1, l2, l3|]. apply not_elem_of_cons. split; [|done].
    intros Heq. unfold worker_occ in *. simpl in *. rewrite <- Heq, hit_same in *. lia.
  - left. split; [by exists l1, l2, l3|]. apply not_elem_of_cons. split; [|done].
    intros Heq. unfold worker_occ in *. simpl in *. rewrite <- Heq, hit_same in *. lia.
  - left. split; [by exists l1, l2, l3|]. apply not_elem_of_cons. split; [|done].
    intros Heq. unfold worker_occ in *. simpl in *. rewrite <- Heq, hit_same in *. lia.
Qed.

Lemma in_order_run e1 e2 tr : forall s s',
  tickets_ok s -> in_order e1 e2 s -> run s tr = Some s' -> in_order e1 e2 s'.
Proof.
  induction tr as [|ev tr IH]; intros s s' Htk Hs H; simpl in H.
  - by simplify_eq.
  - destruct (step s ev) as [s1|] eqn:E; [|done].
    apply (IH s1); [by eapply tickets_ok_step|by eapply in_order_step|done].
Qed.

(** X13: first in, first out.  If [e1] stands before [e2] in the queue, then
    by the time [e2] has been called [e1] has left the queue: the queue
    holds no element with the ticket of [e1] any more. *)
Theorem queue_is_fifo threadCount s0 tr0 s l1 e1 l2 e2 l3 tr s' :
  ConcurrentQueue threadCount = Normal s0 -> run s0 tr0 = Some s ->
  fault s = None ->
  _queue s = l1 ++ e1 :: l2 ++ e2 :: l3 ->
  run s tr = Some s' -> ticket e2 ∈ executed s' ->
  Forall (fun e => ticket e <> ticket e1) (_queue s').
Proof.
  intros H0 Hrun0 Hf Hq Hrun Hex.
  pose proof (tickets_ok_reachable _ _ _ _ H0 Hrun0) as Htk.
  assert (in_order e1 e2 s) as Hs.
  { left. split; [by exists l1, l2, l3|].
    intros Hin. destruct (Htk Hf (ticket e2)) as [Ho _]. unfold occ in Ho.
    rewrite Hq, !total_app in Ho. simpl in Ho. rewrite total_app in Ho.
    simpl in Ho. rewrite hit_same in Ho.
    pose proof (total_elem (hit (ticket e2)) _ _ (hit_nonneg _) Hin) as He.
    rewrite hit_same in He.
    pose proof (total_nonneg (fun e => hit (ticket e2) (ticket e)) l1
                  (fun e => hit_nonneg _ (ticket e))).
    pose proof (total_nonneg (fun e => hit (ticket e2) (ticket e)) l2
                  (fun e => hit_nonneg _ (ticket e))).
    pose proof (total_nonneg (fun e => hit (ticket e2) (ticket e)) l3
                  (fun e => hit_nonneg _ (ticket e))).
    pose proof (hit_nonneg (ticket e2) (ticket e1)).
    pose proof (total_nonneg (caller_occ (ticket e2)) (callers s) (caller_occ_nonneg _)).
    pose proof (total_nonneg (worker_occ (ticket e2)) (threads s) (worker_occ_nonneg _)).
    lia. }
  destruct (in_order_run e1 e2 tr s s' Htk Hs Hrun) as [[_ Hne]|[Hz _]]; [done|].
  apply Forall_forall. intros e He Heq. unfold pending in Hz.
  pose proof (total_elem (fun e0 => hit (ticket e1) (ticket e0)) _ _
                (fun e0 => hit_nonneg (ticket e1) (ticket e0)) He) as Hq'.
  simpl in Hq'. rewrite Heq, hit_same in Hq'.
  pose proof (total_nonneg (caller_occ (ticket e1)) (callers s') (caller_occ_nonneg _)).
  lia.
Qed.

Lemma queue_is_fifo_witness :
  Forall (fun e => ticket e <> ticket (Entry 0 (Target 7)))
         (_queue two_served_state).
Proof.
  apply (queue_is_fifo 1 (fresh 1) two_queued_trace two_queued_state
           [] (Entry 0 (Target 7)) [] (Entry 1 (Target 8)) []
           serve_two two_served_state);
    [reflexivity | reflexivity | reflexivity | reflexivity | reflexivity
    | constructor].
Defined.

(** ** The counter, exactly *)

Lemma total_zero_Forall {A : Type} (f : A -> Z) (l : list A) :
  Forall (fun x => f x = 0) l -> total f l = 0.
Proof. induction 1 as [|x l Hx _ IH]; simpl; [done|]. rewrite Hx, IH. done. Qed.

(** X14: [jobsLeft] is exactly the number of jobs in flight: the queued
    ones, one for each [enqueue] between its increment and its push, those a
    cancelPending has swapped out and not yet subtracted, and one for each
    worker between its [pop] and its decrement.  Hence it equals
    [_queue.size()] whenever no worker and no call is in such a place. *)
Theorem jobsLeft_counts_jobs_in_flight threadCount s0 tr s :
  ConcurrentQueue threadCount = Normal s0 -> run s0 tr = Some s ->
  enqueue_calls tr < size_modulus ->
  jobsLeft s = Z.of_nat (length (_queue s)) + total caller_owed (callers s)
               + total worker_owed (threads s)
  /\ (Forall (fun t => pc t <> WFinalize /\ forall e, pc t <> WRun e) (threads s) ->
      Forall (fun c => (forall e, c <> EnqPush e)
                       /\ (forall q, q <> [] -> c <> CanFinalize q)) (callers s) ->
      jobsLeft s = Z.of_nat (length (_queue s))).
Proof.
  intros H0 Hrun Hlt.
  destruct (accounted_reachable _ _ _ _ H0 Hrun Hlt) as (Hj & _ & _).
  unfold owed in Hj. split; [done|]. intros Ht Hc.
  rewrite Hj, (total_zero_Forall worker_owed), (total_zero_Forall caller_owed); [lia| |].
  - eapply Forall_impl; [exact Hc|]. intros c [H1 H2].
    destruct c; simpl; try done; [by destruct (H1 e)|].
    destruct oldQueue; [done|]. by destruct (H2 (e :: oldQueue)).
  - eapply Forall_impl; [exact Ht|]. intros [[] ?] [H1 H2];
      unfold worker_owed; simpl in *; try done. by destruct (H2 e).
Qed.

Lemma jobsLeft_counts_jobs_in_flight_witness :
  jobsLeft busy_state
  = Z.of_nat (length (_queue busy_state)) + total caller_owed (callers busy_state)
    + total worker_owed (threads busy_state)
  /\ (Forall (fun t => pc t <> WFinalize /\ forall e, pc t <> WRun e)
             (threads busy_state) ->
      Forall (fun c => (forall e, c <> EnqPush e)
                       /\ (forall q, q <> [] -> c <> CanFinalize q))
             (callers busy_state) ->
      jobsLeft busy_state = Z.of_nat (length (_queue busy_state))).
Proof.
  apply (jobsLeft_counts_jobs_in_flight 2 (fresh 2) busy_trace busy_state);
    [reflexivity | reflexivity | vm_compute; reflexivity].
Defined.

End ConcurrentQueue.
